(** * AI Hug Video Generator: compositor, generation client and workflow

    A shallow embedding of the TypeScript sources
      - [App.tsx]                    (loadingMessages, combineImages, App),
      - [services/geminiService.ts]  (pollOperation, generateHuggingVideo),
      - [components/ImageUploader.tsx] (handleFileChange),
      - [types.ts]                   (UploadedImage),
    followed by the properties of the specification that were checked
    against them.

    Conventions.  A JavaScript number is a binary64 floating-point number
    where the code computes with fractions, and an integer ([Z], [N]) where
    it counts or holds a handle; a value that may be [null] or [undefined]
    is an [option]; an [async] function is the tree of the promises it
    awaits ([Js.Prog]); a [while] loop is a fuel-bounded fixpoint that ends
    in [Js.Spin] when the fuel is used up. *)

From Stdlib Require Import ZArith QArith Qround Qabs List String Ascii Bool Lia.
From Stdlib Require Floats Uint63.
Import ListNotations.

Local Open Scope string_scope.
Local Open Scope Z_scope.
Local Open Scope list_scope.

(* ===================================================================== *)
(** * The JavaScript run time: thrown values, promises, async programs    *)
(* ===================================================================== *)

Module Js.

(** What a [throw] carries: an [Error] with its message, or any other
    value ([err instanceof Error] is false for it). *)
Inductive Thrown : Type :=
| JsError (message : string)
| JsOther.

(** A settled promise: rejected with a thrown value, or fulfilled. *)
Definition Settled (X : Type) : Type := (Thrown + X)%type.

(** An [async] function body over the operations [E] it awaits.
    [Vis ev k] performs [ev] and resumes with [k] once it settles. *)
Inductive Prog (E : Type -> Type) (A : Type) : Type :=
| Ret (a : A)
| Throw (e : Thrown)
| Vis {X : Type} (ev : E X) (k : Settled X -> Prog E A)
| Spin.

Arguments Ret {E A} a.
Arguments Throw {E A} e.
Arguments Vis {E A X} ev k.
Arguments Spin {E A}.

Fixpoint bind {E A B} (p : Prog E A) (f : A -> Prog E B) : Prog E B :=
  match p with
  | Ret a => f a
  | Throw e => Throw e
  | Vis ev k => Vis ev (fun r => bind (k r) f)
  | Spin => Spin
  end.

(** [await ev]: a rejection is thrown at the [await]. *)
Definition await {E X} (ev : E X) : Prog E X :=
  Vis ev (fun r => match r with inl e => Throw e | inr x => Ret x end).

(** [try { p } catch (e) { h e }] *)
Fixpoint try_catch {E A} (p : Prog E A) (h : Thrown -> Prog E A) : Prog E A :=
  match p with
  | Ret a => Ret a
  | Throw e => h e
  | Vis ev k => Vis ev (fun r => try_catch (k r) h)
  | Spin => Spin
  end.

(** [try { p } finally { fin }]: [fin] runs on both exits and the
    completion of [p] is kept when [fin] completes normally. *)
Fixpoint try_finally {E A} (p : Prog E A) (fin : Prog E unit) : Prog E A :=
  match p with
  | Ret a => bind fin (fun _ => Ret a)
  | Throw e => bind fin (fun _ => Throw e)
  | Vis ev k => Vis ev (fun r => try_finally (k r) fin)
  | Spin => Spin
  end.

(** How a run of an async function ends. *)
Inductive Outcome (A : Type) : Type :=
| Returned (a : A)
| Threw (e : Thrown)
| Pending.

Arguments Returned {A} a.
Arguments Threw {A} e.
Arguments Pending {A}.

(** The environment answers each operation in a world [W]; [None] is a
    promise that never settles. *)
Definition Handler (E : Type -> Type) (W : Type) : Type :=
  forall X, E X -> W -> option (Settled X) * W.

Fixpoint run {E W A} (h : Handler E W) (p : Prog E A) (w : W) : Outcome A * W :=
  match p with
  | Ret a => (Returned a, w)
  | Throw e => (Threw e, w)
  | Vis ev k =>
      match h _ ev w with
      | (Some r, w') => run h (k r) w'
      | (None, w') => (Pending, w')
      end
  | Spin => (Pending, w)
  end.

(** The promise an async function returns, once its run is over. *)
Definition settle {A} (o : Outcome A) : option (Settled A) :=
  match o with
  | Returned a => Some (inr a)
  | Threw e => Some (inl e)
  | Pending => None
  end.

(** [err instanceof Error ? err.message : fallback] *)
Definition message_or (fallback : string) (err : Thrown) : string :=
  match err with
  | JsError m => m
  | JsOther => fallback
  end.

(** [String.prototype.split] on a one-character separator. *)
Fixpoint split (sep : ascii) (s : string) : list string :=
  match s with
  | EmptyString => [EmptyString]
  | String c rest =>
      if Ascii.eqb c sep then EmptyString :: split sep rest
      else match split sep rest with
           | [] => [String c EmptyString]
           | piece :: pieces => String c piece :: pieces
           end
  end.

(** [String.prototype.startsWith] *)
Definition startsWith (s p : string) : bool := String.prefix p s.

(** Truthiness of a [string | undefined] and of a [number | null]. *)
Definition truthy_string (v : option string) : bool :=
  match v with
  | Some s => negb (String.eqb s "")
  | None => false
  end.

Definition truthy_number (v : option Z) : bool :=
  match v with
  | Some n => negb (n =? 0)
  | None => false
  end.

End Js.

Notation "x <- p ;; q" := (Js.bind p (fun x => q))
  (at level 61, p at next level, right associativity).
Notation "p ;;; q" := (Js.bind p (fun _ => q))
  (at level 61, right associativity).

(* ===================================================================== *)
(** * types.ts                                                            *)
(* ===================================================================== *)

(** [base64] is [dataUrl.split(',')[1]], which is [undefined] for a data
    URL without a comma. *)
Record UploadedImage : Type := {
  base64 : option string;
  mimeType : string;
  dataUrl : string
}.

(* ===================================================================== *)
(** * services/geminiService.ts                                           *)
(* ===================================================================== *)

Module GeminiService.
Import Js.

(** The part of the provider's operation object the code reads:
    [done] and [response?.generatedVideos?.[0]?.video?.uri]. *)
Record Video : Type := { uri : option string }.
Record GeneratedVideo : Type := { video : option Video }.
Record GenerateVideosResponse : Type :=
  { generatedVideos : option (list GeneratedVideo) }.
Record Operation : Type := {
  done : bool;
  response : option GenerateVideosResponse
}.

Record GenerateVideosParams : Type := {
  model : string;
  prompt : string;
  imageBytes : option string;
  imageMimeType : string;
  numberOfVideos : Z
}.

Definition Blob : Type := list Byte.byte.

Record FetchResponse : Type := {
  ok : bool;
  statusText : string
}.

(** The operations the service awaits or calls. *)
Inductive ServiceE : Type -> Type :=
| GenerateVideos (params : GenerateVideosParams) : ServiceE Operation
| SetTimeout (ms : Z) : ServiceE unit
| GetVideosOperation (operation : Operation) : ServiceE Operation
| Fetch (url : string) : ServiceE FetchResponse
| ReadBlob (r : FetchResponse) : ServiceE Blob
| CreateObjectURL (b : Blob) : ServiceE string
| ConsoleError (label : string) (err : Thrown) : ServiceE unit.

(** [pollOperation]: [while (!result.done) { wait 10000 ms; result =
    getVideosOperation(result) }], each turn of the loop using one unit
    of fuel. *)
Fixpoint pollOperation (fuel : nat) (operation : Operation)
  : Prog ServiceE Operation :=
  let result := operation in
  if done result then Ret result
  else match fuel with
       | O => Spin
       | S fuel' =>
           await (SetTimeout 10000) ;;;
           result' <- await (GetVideosOperation result) ;;
           pollOperation fuel' result'
       end.

Definition the_prompt : string :=
  "From the provided image containing two people side-by-side, create a short video. In the video, the person on the right walks through the person on the left, moves behind them, and then hugs their waist from behind. The person on the left must remain completely still and stationary throughout the entire video. Do not duplicate or clone either person. Ensure the animation is smooth and realistic.".

(** [finalOperation.response?.generatedVideos?.[0]?.video?.uri] *)
Definition downloadLink (finalOperation : Operation) : option string :=
  match response finalOperation with
  | None => None
  | Some r =>
      match generatedVideos r with
      | None => None
      | Some vs =>
          match nth_error vs 0 with
          | None => None
          | Some gv =>
              match video gv with
              | None => None
              | Some v => uri v
              end
          end
      end
  end.

(** The request submitted for a composite (lines 20-30). *)
Definition request (combinedImage : UploadedImage) : GenerateVideosParams :=
  {| model := "veo-2.0-generate-001";
     prompt := the_prompt;
     imageBytes := base64 combinedImage;
     imageMimeType := mimeType combinedImage;
     numberOfVideos := 1 |}.

Section WithApiKey.
(** [process.env.API_KEY], as the template string prints it. *)
Variable API_KEY : string.

Definition generateHuggingVideo_body (fuel : nat) (combinedImage : UploadedImage)
  : Prog ServiceE string :=
  operation <- await (GenerateVideos (request combinedImage)) ;;
  finalOperation <- pollOperation fuel operation ;;
  if negb (truthy_string (downloadLink finalOperation)) then
    Throw (JsError "Video generation failed: no download link provided.")
  else
    let link := match downloadLink finalOperation with
                | Some l => l
                | None => ""
                end in
    videoResponse <- await (Fetch (link ++ "&key=" ++ API_KEY)%string) ;;
    if negb (ok videoResponse) then
      Throw (JsError ("Failed to download video: " ++ statusText videoResponse)%string)
    else
      videoBlob <- await (ReadBlob videoResponse) ;;
      await (CreateObjectURL videoBlob).

Definition generateHuggingVideo (fuel : nat) (combinedImage : UploadedImage)
  : Prog ServiceE string :=
  try_catch (generateHuggingVideo_body fuel combinedImage)
    (fun error =>
       await (ConsoleError "Error generating video:" error) ;;;
       match error with
       | JsError m => Throw (JsError ("An error occurred with the AI service: " ++ m)%string)
       | JsOther => Throw (JsError "An unknown error occurred during video generation.")
       end).
End WithApiKey.

(** ** The remote collaborator and the trace of a run *)

Inductive Action : Type :=
| Submitted (params : GenerateVideosParams)
| Waited (ms : Z)
| Queried (operation : Operation)
| Fetched (url : string)
| BlobRead
| ObjectURLCreated
| Logged (label : string) (err : Thrown).

(** The answers of the provider and of the network.  [status_query k]
    is the response to the status query number [k] (from 0) of the run. *)
Record Remote : Type := {
  submit : GenerateVideosParams -> option (Settled Operation);
  status_query : nat -> option (Settled Operation);
  fetch : string -> option (Settled FetchResponse);
  blob : FetchResponse -> option (Settled Blob);
  object_url : Blob -> string
}.

Record World : Type := {
  queries : nat;
  trace : list Action
}.

Definition note (a : Action) (w : World) : World :=
  {| queries := queries w; trace := trace w ++ [a] |}.

Definition serve (R : Remote) : Handler ServiceE World :=
  fun X ev =>
    match ev in ServiceE X return World -> option (Settled X) * World with
    | GenerateVideos params => fun w => (submit R params, note (Submitted params) w)
    | SetTimeout ms => fun w => (Some (inr tt), note (Waited ms) w)
    | GetVideosOperation operation => fun w =>
        (status_query R (queries w),
         {| queries := S (queries w); trace := trace w ++ [Queried operation] |})
    | Fetch url => fun w => (fetch R url, note (Fetched url) w)
    | ReadBlob r => fun w => (blob R r, note BlobRead w)
    | CreateObjectURL b => fun w => (Some (inr (object_url R b)), note ObjectURLCreated w)
    | ConsoleError label err => fun w => (Some (inr tt), note (Logged label err) w)
    end.

Definition fresh : World := {| queries := 0; trace := [] |}.

(** The job status the loop of [pollOperation] inspects at its [k]-th
    test of [result.done]: the handle it was given at [k = 0], then the
    response to the status query made just before. *)
Definition inspected (R : Remote) (w : World) (operation : Operation) (k : nat)
  : option (Settled Operation) :=
  match k with
  | O => Some (inr operation)
  | S j => status_query R (queries w + j)
  end.

Definition waits (t : list Action) : list Z :=
  flat_map (fun a => match a with Waited ms => [ms] | _ => [] end) t.

Definition status_queries (t : list Action) : nat :=
  List.length (filter (fun a => match a with Queried _ => true | _ => false end) t).

(** The trace of the turns of the polling loop that inspected the
    handles [inspected_handles]. *)
Definition rounds (inspected_handles : list Operation) : list Action :=
  flat_map (fun o => [Waited 10000; Queried o]) inspected_handles.

Definition is_fetch (a : Action) : bool :=
  match a with Fetched _ => true | _ => false end.

(** The message of the error thrown for a completed job without a
    result locator, as the [catch] of [generateHuggingVideo] wraps it. *)
Definition no_link_message : string :=
  "An error occurred with the AI service: Video generation failed: no download link provided.".

End GeminiService.

(* ===================================================================== *)
(** * App.tsx: combineImages                                              *)
(* ===================================================================== *)

Module Compositor.
Import Js Floats.

(** JavaScript numbers are binary64 floating-point numbers. *)
Definition number : Type := float.

(** An [unsigned long] (below 2^32) as a number; the conversion is exact. *)
Definition of_N (n : N) : number := of_uint63 (Uint63.of_Z (Z.of_N n)).

Definition of_Z (z : Z) : number := of_N (Z.to_N z).

(** [m * 2^e], the absolute value of a finite double of mantissa [m] and
    exponent [e]. *)
Definition magnitude (m : positive) (e : Z) : Q :=
  if 0 <=? e then inject_Z (2 ^ e * Z.pos m)
  else Qmake (Z.pos m) (2 ^ Z.to_pos (- e))%positive.

(** The real number a finite double stands for, in lowest terms; [None]
    for the infinities and NaN. *)
Definition value (x : number) : option Q :=
  match Prim2SF x with
  | S754_zero _ => Some 0%Q
  | S754_finite negative m e =>
      Some (Qred (if negative then Qopp (magnitude m e) else magnitude m e))
  | S754_infinity _ | S754_nan => None
  end.

(** Conversion of a number to the [unsigned long] of a canvas dimension:
    the integer part (towards zero), modulo 2^32; 0 for the infinities and
    NaN. *)
Definition to_unsigned_long (x : number) : Z :=
  match Prim2SF x with
  | S754_finite negative m e =>
      let whole := if 0 <=? e then 2 ^ e * Z.pos m else Z.pos m / 2 ^ (- e) in
      (if negative then - whole else whole) mod 2 ^ 32
  | S754_zero _ | S754_infinity _ | S754_nan => 0
  end.

(** A loaded [HTMLImageElement]. *)
Record Image : Type := {
  img_width : N;
  img_height : N
}.


Inductive Side : Type := Left | Right.

(** A call on the 2D context, with the fill style in force. *)
Inductive Drawing : Type :=
| fillRect (style : string) (x y w h : number)
| drawImage (image : Side) (dx dy dWidth dHeight : number).

Record Canvas : Type := {
  canvas_width : Z;
  canvas_height : Z;
  fillStyle : string;
  drawings : list Drawing
}.

(** [document.createElement('canvas')]: 300 x 150, black fill style. *)
Definition createCanvas : Canvas :=
  {| canvas_width := 300; canvas_height := 150;
     fillStyle := "#000000"; drawings := [] |}.

(** Assigning a dimension converts the number and clears the bitmap. *)
Definition set_width (v : number) (c : Canvas) : Canvas :=
  {| canvas_width := to_unsigned_long v; canvas_height := canvas_height c;
     fillStyle := "#000000"; drawings := [] |}.

Definition set_height (v : number) (c : Canvas) : Canvas :=
  {| canvas_width := canvas_width c; canvas_height := to_unsigned_long v;
     fillStyle := "#000000"; drawings := [] |}.

Definition set_fillStyle (style : string) (c : Canvas) : Canvas :=
  {| canvas_width := canvas_width c; canvas_height := canvas_height c;
     fillStyle := style; drawings := drawings c |}.

Definition draw (d : Drawing) (c : Canvas) : Canvas :=
  {| canvas_width := canvas_width c; canvas_height := canvas_height c;
     fillStyle := fillStyle c; drawings := drawings c ++ [d] |}.

Definition targetHeight : number := 720%float.

Definition leftScaledWidth (leftImage : Image) : number :=
  let leftAspectRatio :=
    (of_N (img_width leftImage) / of_N (img_height leftImage))%float in
  (targetHeight * leftAspectRatio)%float.

Definition rightScaledWidth (rightImage : Image) : number :=
  let rightAspectRatio :=
    (of_N (img_width rightImage) / of_N (img_height rightImage))%float in
  (targetHeight * rightAspectRatio)%float.

(** Lines 32-46 of [onBothLoaded]: the canvas as it is handed to the
    encoder. *)
Definition composite (leftImage rightImage : Image) : Canvas :=
  let canvas := createCanvas in
  let canvas := set_width (leftScaledWidth leftImage
                           + rightScaledWidth rightImage)%float canvas in
  let canvas := set_height targetHeight canvas in
  let canvas := set_fillStyle "#000000" canvas in
  let canvas := draw (fillRect (fillStyle canvas) (of_Z 0) (of_Z 0)
                        (of_Z (canvas_width canvas))
                        (of_Z (canvas_height canvas))) canvas in
  let canvas := draw (drawImage Left (of_Z 0) (of_Z 0)
                        (leftScaledWidth leftImage) targetHeight) canvas in
  draw (drawImage Right (leftScaledWidth leftImage) (of_Z 0)
          (rightScaledWidth rightImage) targetHeight) canvas.

(** The encoder settings of [canvas.toDataURL('image/jpeg', 0.9)]; the
    double nearest to 0.9 is 0x1.ccccccccccccdp-1. *)
Definition encoding_type : string := "image/jpeg".
Definition encoding_quality : number := 0x1.ccccccccccccdp-1%float.




(** The state the promise executor closes over. *)
Record Loading : Type := {
  leftLoaded : bool;
  rightLoaded : bool;
  promise : option (Settled UploadedImage)
}.

(** [resolve] and [reject] act on a pending promise only. *)
Definition settle_with (r : Settled UploadedImage) (st : Loading) : Loading :=
  {| leftLoaded := leftLoaded st; rightLoaded := rightLoaded st;
     promise := match promise st with
                | None => Some r
                | Some first => Some first
                end |}.

Definition resolve (v : UploadedImage) : Loading -> Loading := settle_with (inr v).
Definition reject (message : string) : Loading -> Loading :=
  settle_with (inl (JsError message)).

Inductive LoadEvent : Type :=
| onload (side : Side)
| onerror (side : Side).

Section Browser.
(** The encoder behind [canvas.toDataURL] and whether
    [canvas.getContext('2d')] gives a context. *)
Variable toDataURL : Canvas -> string -> number -> string.
Variable context2d : bool.

Definition onBothLoaded (leftImage rightImage : Image) (st : Loading) : Loading :=
  if leftLoaded st && rightLoaded st then
    if negb context2d then reject "Could not get canvas context" st
    else
      let canvas := composite leftImage rightImage in
      let dataUrl := toDataURL canvas encoding_type encoding_quality in
      let base64 := nth_error (split "," dataUrl) 1 in
      resolve {| base64 := base64; mimeType := "image/jpeg"; dataUrl := dataUrl |} st
  else st.

Definition dispatch (leftImage rightImage : Image) (ev : LoadEvent) (st : Loading)
  : Loading :=
  match ev with
  | onload Left =>
      onBothLoaded leftImage rightImage
        {| leftLoaded := true; rightLoaded := rightLoaded st; promise := promise st |}
  | onerror Left => reject "Failed to load left image." st
  | onload Right =>
      onBothLoaded leftImage rightImage
        {| leftLoaded := leftLoaded st; rightLoaded := true; promise := promise st |}
  | onerror Right => reject "Failed to load right image." st
  end.

Definition executor_start : Loading :=
  {| leftLoaded := false; rightLoaded := false; promise := None |}.

(** The promise of [combineImages] after the load events [events] of
    its two images. *)
Definition combineImages_after (leftImage rightImage : Image)
    (events : list LoadEvent) : option (Settled UploadedImage) :=
  promise (fold_left (fun st ev => dispatch leftImage rightImage ev st)
             events executor_start).

(** What the browser makes of an image source: its dimensions, or a
    load error. *)
Variable decode : string -> option Image.

Definition source (leftImgSrc rightImgSrc : string) (side : Side) : string :=
  match side with Left => leftImgSrc | Right => rightImgSrc end.

Definition decoded (src : string) : Image :=
  match decode src with
  | Some image => image
  | None => {| img_width := 0; img_height := 0 |}
  end.

Definition load_event (src : string) (side : Side) : LoadEvent :=
  match decode src with
  | Some _ => onload side
  | None => onerror side
  end.

(** [combineImages], the two loads completing in the order [order]. *)
Definition combineImages (order : list Side) (leftImgSrc rightImgSrc : string)
  : option (Settled UploadedImage) :=
  combineImages_after (decoded leftImgSrc) (decoded rightImgSrc)
    (map (fun side => load_event (source leftImgSrc rightImgSrc side) side) order).
End Browser.


End Compositor.
(* ===================================================================== *)
(** * components/ImageUploader.tsx                                        *)
(* ===================================================================== *)

Module ImageUploader.
Import Js.

(** A file of the input element: its declared type and what
    [FileReader.readAsDataURL] makes of it ([None]: the read fails). *)
Record File : Type := {
  type : string;
  read : option string
}.

(** The component's own state. *)
Record State : Type := {
  preview : option string;
  error : option string
}.

Definition initial : State := {| preview := None; error := None |}.

Definition setPreview (v : option string) (st : State) : State :=
  {| preview := v; error := error st |}.

Definition setError (v : option string) (st : State) : State :=
  {| preview := preview st; error := v |}.

(** A handler gives the new state and its calls of [onImageUpload], in
    order. *)
Definition Result : Type := (State * list (option UploadedImage))%type.

(** [handleFileChange] up to [reader.readAsDataURL(file)]; the third
    component is the file whose read was started, if any. *)
Definition handleFileChange (file : option File) (st : State)
  : Result * option File :=
  match file with
  | None => ((setPreview None st, [None]), None)
  | Some f =>
      if negb (startsWith (type f) "image/") then
        ((setPreview None
            (setError (Some "Please upload a valid image file (PNG, JPG, etc.).") st),
          [None]), None)
      else ((setError None st, []), Some f)
  end.

(** [reader.onloadend], with [reader.result].  On a failed read the
    result is [null] and [dataUrl.split] throws a [TypeError], which ends
    the handler before it touches anything. *)
Definition onloadend (file : File) (result : option string) (st : State) : Result :=
  match result with
  | None => (st, [])
  | Some dataUrl =>
      let base64 := nth_error (split "," dataUrl) 1 in
      (setPreview (Some dataUrl) st,
       [Some {| base64 := base64; mimeType := type file; dataUrl := dataUrl |}])
  end.

(** [reader.onerror] *)
Definition onerror (st : State) : Result :=
  (setError (Some "Failed to read the file.") st, [None]).

(** The events of one read: [loadend] after a success, [error] then
    [loadend] after a failure. *)
Definition readAsDataURL (file : File) (st : State) : Result :=
  match read file with
  | Some dataUrl => onloadend file (Some dataUrl) st
  | None =>
      let '(st1, calls1) := onerror st in
      let '(st2, calls2) := onloadend file None st1 in
      (st2, calls1 ++ calls2)
  end.

(** A change of the file input, followed to the end of the read. *)
Definition file_chosen (file : option File) (st : State) : Result :=
  match handleFileChange file st with
  | ((st1, calls1), None) => (st1, calls1)
  | ((st1, calls1), Some f) =>
      let '(st2, calls2) := readAsDataURL f st1 in
      (st2, calls1 ++ calls2)
  end.


End ImageUploader.
(* ===================================================================== *)
(** * App.tsx: the App component                                          *)
(* ===================================================================== *)

Module App.
Import Js.

Definition loadingMessages : list string :=
  [ "Warming up the digital actors...";
    "Choreographing the embrace...";
    "Setting the scene for the animation...";
    "Rendering the initial frames...";
    "This can take a few minutes, please be patient.";
    "AI is composing the video sequence...";
    "Almost there, adding the final touches..." ].

(** The six [useState] cells. *)
Record State : Type := {
  leftImage : option UploadedImage;
  rightImage : option UploadedImage;
  generatedVideoUrl : option string;
  isLoading : bool;
  loadingMessage : string;
  error : option string
}.

Definition initial : State :=
  {| leftImage := None; rightImage := None; generatedVideoUrl := None;
     isLoading := false; loadingMessage := nth 0 loadingMessages "";
     error := None |}.

Definition setLeftImage (v : option UploadedImage) (s : State) : State :=
  {| leftImage := v; rightImage := rightImage s;
     generatedVideoUrl := generatedVideoUrl s; isLoading := isLoading s;
     loadingMessage := loadingMessage s; error := error s |}.

Definition setRightImage (v : option UploadedImage) (s : State) : State :=
  {| leftImage := leftImage s; rightImage := v;
     generatedVideoUrl := generatedVideoUrl s; isLoading := isLoading s;
     loadingMessage := loadingMessage s; error := error s |}.

Definition setGeneratedVideoUrl (v : option string) (s : State) : State :=
  {| leftImage := leftImage s; rightImage := rightImage s;
     generatedVideoUrl := v; isLoading := isLoading s;
     loadingMessage := loadingMessage s; error := error s |}.

Definition setIsLoading (v : bool) (s : State) : State :=
  {| leftImage := leftImage s; rightImage := rightImage s;
     generatedVideoUrl := generatedVideoUrl s; isLoading := v;
     loadingMessage := loadingMessage s; error := error s |}.

Definition setLoadingMessage (f : string -> string) (s : State) : State :=
  {| leftImage := leftImage s; rightImage := rightImage s;
     generatedVideoUrl := generatedVideoUrl s; isLoading := isLoading s;
     loadingMessage := f (loadingMessage s); error := error s |}.

Definition setError (v : option string) (s : State) : State :=
  {| leftImage := leftImage s; rightImage := rightImage s;
     generatedVideoUrl := generatedVideoUrl s; isLoading := isLoading s;
     loadingMessage := loadingMessage s; error := v |}.

(** ** The progress ticker *)

(** [Array.prototype.indexOf]: the first index, or -1. *)
Fixpoint indexOf (l : list string) (x : string) : Z :=
  match l with
  | [] => -1
  | y :: rest =>
      if String.eqb y x then 0
      else let i := indexOf rest x in if i <? 0 then -1 else i + 1
  end.

(** The updater of the interval callback (lines 79-83). *)
Definition next_message (prev : string) : string :=
  let currentIndex := indexOf loadingMessages prev in
  let nextIndex := Z.rem (currentIndex + 1) (Z.of_nat (List.length loadingMessages)) in
  nth (Z.to_nat nextIndex) loadingMessages "".

Definition tick (s : State) : State := setLoadingMessage next_message s.

(** The timers of the window: handle and period of each running
    interval, and the next handle to give out (handles are positive). *)
Record Window : Type := {
  intervals : list (Z * Z);
  next_handle : Z
}.

Definition setInterval (period : Z) (w : Window) : Z * Window :=
  (next_handle w,
   {| intervals := intervals w ++ [(next_handle w, period)];
      next_handle := next_handle w + 1 |}).

Definition clearInterval (handle : Z) (w : Window) : Window :=
  {| intervals := filter (fun t => negb (fst t =? handle)) (intervals w);
     next_handle := next_handle w |}.

Definition running (handle : Z) (w : Window) : bool :=
  existsb (fun t => fst t =? handle) (intervals w).

(** The body of the [useEffect] keyed on [isLoading] (lines 77-90), on
    the ref cell [intervalRef] and the window. *)
Definition effect (loading : bool) (intervalRef : option Z) (w : Window)
  : option Z * Window :=
  if loading then
    let '(handle, w') := setInterval 3000 w in (Some handle, w')
  else
    if truthy_number intervalRef then
      match intervalRef with
      | Some handle => (None, clearInterval handle w)
      | None => (None, w)
      end
    else (intervalRef, w).

(** Its cleanup (lines 92-96). *)
Definition cleanup (intervalRef : option Z) (w : Window) : Window :=
  if truthy_number intervalRef then
    match intervalRef with
    | Some handle => clearInterval handle w
    | None => w
    end
  else w.

(** ** handleGenerateVideo *)

(** What the handler does: state updates, and the two promises it
    awaits. *)
Inductive AppE : Type -> Type :=
| SetIsLoading (v : bool) : AppE unit
| SetError (v : option string) : AppE unit
| SetGeneratedVideoUrl (v : option string) : AppE unit
| CombineImages (leftImgSrc rightImgSrc : string) : AppE UploadedImage
| GenerateHuggingVideo (combinedImage : UploadedImage) : AppE string.

Definition perform {X} (ev : AppE X) : Prog AppE X := await ev.

(** The callback closes over [leftImage] and [rightImage] of the render
    it was made in. *)
Definition handleGenerateVideo (leftImage rightImage : option UploadedImage)
  : Prog AppE unit :=
  match leftImage, rightImage with
  | Some leftImg, Some rightImg =>
      perform (SetIsLoading true) ;;;
      perform (SetError None) ;;;
      perform (SetGeneratedVideoUrl None) ;;;
      try_finally
        (try_catch
           (combinedImage <- await (CombineImages (dataUrl leftImg) (dataUrl rightImg)) ;;
            videoUrl <- await (GenerateHuggingVideo combinedImage) ;;
            perform (SetGeneratedVideoUrl (Some videoUrl)))
           (fun err =>
              let errorMessage := message_or "An unexpected error occurred." err in
              perform (SetError (Some errorMessage))))
        (perform (SetIsLoading false))
  | _, _ =>
      perform (SetError (Some "Please upload both images before generating."))
  end.

(** The rest of the handler at its two [await]s (lines 110 and 111), as
    [advance] finds it there. *)
Definition catch_clause (err : Thrown) : Prog AppE unit :=
  let errorMessage := message_or "An unexpected error occurred." err in
  perform (SetError (Some errorMessage)).

Definition after_generate (result : Settled string) : Prog AppE unit :=
  try_finally
    (try_catch
       (videoUrl <- match result with inl e => Throw e | inr x => Ret x end ;;
        perform (SetGeneratedVideoUrl (Some videoUrl)))
       catch_clause)
    (perform (SetIsLoading false)).

Definition after_combine (result : Settled UploadedImage) : Prog AppE unit :=
  try_finally
    (try_catch
       (combinedImage <- match result with inl e => Throw e | inr x => Ret x end ;;
        videoUrl <- await (GenerateHuggingVideo combinedImage) ;;
        perform (SetGeneratedVideoUrl (Some videoUrl)))
       catch_clause)
    (perform (SetIsLoading false)).

(** ** A whole run of the handler *)

Inductive Call : Type :=
| Combine (leftImgSrc rightImgSrc : string)
| Generate (combinedImage : UploadedImage).

(** How the two collaborators answer. *)
Record Services : Type := {
  combine : string -> string -> option (Settled UploadedImage);
  generate : UploadedImage -> option (Settled string)
}.

(** The state, and the calls made so far with the state at each call. *)
Record Run : Type := {
  state : State;
  calls : list (Call * State)
}.

Definition update (f : State -> State) (r : Run) : Run :=
  {| state := f (state r); calls := calls r |}.

Definition called (c : Call) (r : Run) : Run :=
  {| state := state r; calls := calls r ++ [(c, state r)] |}.

Definition serve (sv : Services) : Handler AppE Run :=
  fun X ev =>
    match ev in AppE X return Run -> option (Settled X) * Run with
    | SetIsLoading v => fun r => (Some (inr tt), update (setIsLoading v) r)
    | SetError v => fun r => (Some (inr tt), update (setError v) r)
    | SetGeneratedVideoUrl v => fun r =>
        (Some (inr tt), update (setGeneratedVideoUrl v) r)
    | CombineImages l r0 => fun r => (combine sv l r0, called (Combine l r0) r)
    | GenerateHuggingVideo img => fun r => (generate sv img, called (Generate img) r)
    end.

Definition start (s : State) : Run := {| state := s; calls := [] |}.

(** An invocation of the handler in state [s], followed to its end. *)
Definition invoke (sv : Services) (s : State) : Outcome unit * Run :=
  run (serve sv) (handleGenerateVideo (leftImage s) (rightImage s)) (start s).

(** The state in which an attempt awaits its promises (lines 105-107),
    and the message its [catch] shows (line 114). *)
Definition attempt_state (s : State) : State :=
  setGeneratedVideoUrl None (setError None (setIsLoading true s)).

Definition failure_message (e : Thrown) : string :=
  message_or "An unexpected error occurred." e.

(** ** The workflow state the view shows *)

Inductive WorkflowState : Type :=
| Idle
| Busy (progressMessage : string)
| Ready (videoReference : string)
| Failed (errorMessage : string).

(** [Busy] stands for both Compositing and Generating: the component
    keeps one flag, [isLoading], for the two. *)
Definition workflowState (s : State) : WorkflowState :=
  if isLoading s then Busy (loadingMessage s)
  else match error s, generatedVideoUrl s with
       | Some message, _ => Failed message
       | None, Some url => Ready url
       | None, None => Idle
       end.

(** What is on the screen (lines 134, 153, 162, 170 and 180). *)
Record View : Type := {
  inputs_shown : bool;
  generate_disabled : bool;
  progress_shown : option string;
  error_shown : option string;
  video_shown : option string
}.

Definition present {A} (v : option A) : bool :=
  match v with Some _ => true | None => false end.

Definition render (s : State) : View :=
  {| inputs_shown := negb (truthy_string (generatedVideoUrl s)) && negb (isLoading s);
     generate_disabled :=
       negb (present (leftImage s)) || negb (present (rightImage s)) || isLoading s;
     progress_shown := if isLoading s then Some (loadingMessage s) else None;
     error_shown := if truthy_string (error s) then error s else None;
     video_shown :=
       if truthy_string (generatedVideoUrl s) then generatedVideoUrl s else None |}.

(** ** The component in the event loop *)

(** An invocation of the handler waiting on a promise. *)
Inductive Suspended : Type :=
| AwaitingCombine (leftImgSrc rightImgSrc : string)
    (k : Settled UploadedImage -> Prog AppE unit)
| AwaitingGenerate (combinedImage : UploadedImage)
    (k : Settled string -> Prog AppE unit).

(** Runs [p] up to its next [await] of a promise.  State updates of an
    unmounted component are dropped. *)
Fixpoint advance (mounted : bool) (p : Prog AppE unit) (s : State)
  : State * option Suspended :=
  let set (f : State -> State) := if mounted then f s else s in
  match p with
  | Ret _ | Throw _ | Spin => (s, None)
  | Vis ev k =>
      match ev in AppE X
            return (Settled X -> Prog AppE unit) -> State * option Suspended with
      | SetIsLoading v => fun k => advance mounted (k (inr tt)) (set (setIsLoading v))
      | SetError v => fun k => advance mounted (k (inr tt)) (set (setError v))
      | SetGeneratedVideoUrl v => fun k =>
          advance mounted (k (inr tt)) (set (setGeneratedVideoUrl v))
      | CombineImages l r => fun k => (s, Some (AwaitingCombine l r k))
      | GenerateHuggingVideo img => fun k => (s, Some (AwaitingGenerate img k))
      end k
  end.

Definition call_of (p : Suspended) : Call :=
  match p with
  | AwaitingCombine l r _ => Combine l r
  | AwaitingGenerate img _ => Generate img
  end.

Record System : Type := {
  mounted : bool;
  app : State;
  intervalRef : option Z;
  window : Window;
  in_flight : list Suspended
}.

(** After the first render: the effect has run with [isLoading] false. *)
Definition mount : System :=
  {| mounted := true; app := initial; intervalRef := None;
     window := {| intervals := []; next_handle := 1 |};
     in_flight := [] |}.

Inductive Slot : Type := LeftPerson | RightPerson.

Inductive Event : Type :=
| Click_generate
| Click_close_error
| Click_create_another
| Image_upload (slot : Slot) (image : option UploadedImage)
| Interval_fires (handle : Z)
| Combine_settles (n : nat) (result : Settled UploadedImage)
| Generate_settles (n : nat) (result : Settled string)
| Unmount.

(** The commit after a state change: when [isLoading] differs from the
    last render, the cleanup of the old effect runs, then the effect. *)
Definition commit (was_loading : bool) (s : State) (ref : option Z) (w : Window)
  : option Z * Window :=
  if Bool.eqb was_loading (isLoading s) then (ref, w)
  else effect (isLoading s) ref (cleanup ref w).

Definition remove_nth {A} (n : nat) (l : list A) : list A :=
  firstn n l ++ skipn (S n) l.

(** The component resumes or starts [p], then React commits. *)
Definition proceed (sys : System) (others : list Suspended) (p : Prog AppE unit)
  : System * list Call :=
  let '(s', susp) := advance (mounted sys) p (app sys) in
  let '(ref', w') :=
    if mounted sys then commit (isLoading (app sys)) s' (intervalRef sys) (window sys)
    else (intervalRef sys, window sys) in
  ({| mounted := mounted sys; app := s'; intervalRef := ref'; window := w';
      in_flight := others ++ match susp with Some p' => [p'] | None => [] end |},
   match susp with Some p' => [call_of p'] | None => [] end).

(** A state update from an event handler of the mounted component. *)
Definition update_app (sys : System) (f : State -> State) : System * list Call :=
  if mounted sys then
    let s' := f (app sys) in
    let '(ref', w') := commit (isLoading (app sys)) s' (intervalRef sys) (window sys) in
    ({| mounted := true; app := s'; intervalRef := ref'; window := w';
        in_flight := in_flight sys |}, [])
  else (sys, []).

(** One event; the calls it starts are returned with the new state. *)
Definition step (sys : System) (ev : Event) : System * list Call :=
  let view := render (app sys) in
  match ev with
  | Click_generate =>
      if mounted sys && inputs_shown view && negb (generate_disabled view) then
        proceed sys (in_flight sys)
          (handleGenerateVideo (leftImage (app sys)) (rightImage (app sys)))
      else (sys, [])
  | Click_close_error =>
      if present (error_shown view) then update_app sys (setError None)
      else (sys, [])
  | Click_create_another =>
      if present (video_shown view) then
        update_app sys (fun s =>
          setError None (setRightImage None (setLeftImage None
            (setGeneratedVideoUrl None s))))
      else (sys, [])
  | Image_upload LeftPerson image => update_app sys (setLeftImage image)
  | Image_upload RightPerson image => update_app sys (setRightImage image)
  | Interval_fires handle =>
      if running handle (window sys) then update_app sys tick
      else (sys, [])
  | Combine_settles n result =>
      match nth_error (in_flight sys) n with
      | Some (AwaitingCombine _ _ k) =>
          proceed sys (remove_nth n (in_flight sys)) (k result)
      | _ => (sys, [])
      end
  | Generate_settles n result =>
      match nth_error (in_flight sys) n with
      | Some (AwaitingGenerate _ k) =>
          proceed sys (remove_nth n (in_flight sys)) (k result)
      | _ => (sys, [])
      end
  | Unmount =>
      if mounted sys then
        ({| mounted := false; app := app sys; intervalRef := intervalRef sys;
            window := cleanup (intervalRef sys) (window sys);
            in_flight := in_flight sys |}, [])
      else (sys, [])
  end.

Definition after (sys : System) (ev : Event) : System := fst (step sys ev).

(** The states the component can be in. *)
Inductive reachable : System -> Prop :=
| reachable_mount : reachable mount
| reachable_step sys ev : reachable sys -> reachable (after sys ev).

Definition after_all (sys : System) (events : list Event) : System :=
  fold_left after events sys.

(** The events of one attempt started by a click, when the collaborators
    answer as [sv] says. *)
Definition attempt_events (sv : Services) (l r : UploadedImage) : list Event :=
  Click_generate ::
  match combine sv (dataUrl l) (dataUrl r) with
  | None => []
  | Some (inl e) => [Combine_settles 0 (inl e)]
  | Some (inr img) =>
      Combine_settles 0 (inr img) ::
      match generate sv img with
      | None => []
      | Some result => [Generate_settles 0 result]
      end
  end.

(** ** What holds of every reachable state *)

(** At most one invocation is suspended, at one of the two [await]s. *)
Definition flight_ok (sys : System) : Prop :=
  in_flight sys = [] \/
  (exists l r, in_flight sys = [AwaitingCombine l r after_combine]) \/
  (exists img, in_flight sys = [AwaitingGenerate img after_generate]).

(** While one is, the flag is set and neither video nor error is shown. *)
Definition busy_ok (sys : System) : Prop :=
  in_flight sys <> [] ->
  isLoading (app sys) = true /\
  generatedVideoUrl (app sys) = None /\
  error (app sys) = None.

(** The ticker runs exactly while the mounted component is loading. *)
Definition ticker_ok (sys : System) : Prop :=
  0 < next_handle (window sys) /\
  if mounted sys then
    if isLoading (app sys) then
      exists handle,
        intervalRef sys = Some handle /\ 0 < handle < next_handle (window sys) /\
        intervals (window sys) = [(handle, 3000)]
    else intervalRef sys = None /\ intervals (window sys) = []
  else intervals (window sys) = [].

(** The message shown is one of the fixed set. *)
Definition message_ok (sys : System) : Prop :=
  exists i, (i < List.length loadingMessages)%nat /\
            loadingMessage (app sys) = nth i loadingMessages "".

(** The flag of the mounted component is set only while an invocation is
    suspended. *)
Definition idle_ok (sys : System) : Prop :=
  mounted sys = true -> in_flight sys = [] -> isLoading (app sys) = false.

(** An error is never shown together with a video. *)
Definition failed_ok (s : State) : Prop :=
  error s <> None -> generatedVideoUrl s = None.

Record invariant (sys : System) : Prop := {
  inv_flight : flight_ok sys;
  inv_busy : busy_ok sys;
  inv_idle : idle_ok sys;
  inv_failed : failed_ok (app sys);
  inv_ticker : ticker_ok sys;
  inv_message : message_ok sys
}.

(** The uploader of a slot reports to its setter. *)
Definition onImageUpload (slot : Slot) (image : option UploadedImage) (s : State)
  : State :=
  match slot with
  | LeftPerson => setLeftImage image s
  | RightPerson => setRightImage image s
  end.

Definition uploads (slot : Slot) (images : list (option UploadedImage)) (s : State)
  : State :=
  fold_left (fun s image => onImageUpload slot image s) images s.

Definition slot_input (slot : Slot) (s : State) : option UploadedImage :=
  match slot with
  | LeftPerson => leftImage s
  | RightPerson => rightImage s
  end.

End App.
(* ===================================================================== *)
(** * The App with its two collaborators in place                         *)
(* ===================================================================== *)

Module EndToEnd.
Import Js.

Section Wiring.
Variable API_KEY : string.
Variable R : GeminiService.Remote.
Variable fuel : nat.

(** One call of [generateHuggingVideo], from its start to the promise
    it leaves. *)
Definition generation (combinedImage : UploadedImage)
  : Outcome string * GeminiService.World :=
  run (GeminiService.serve R)
    (GeminiService.generateHuggingVideo API_KEY fuel combinedImage)
    GeminiService.fresh.

(** The two collaborators of the App, for a compositor [compose]. *)
Definition services
    (compose : string -> string -> option (Settled UploadedImage))
  : App.Services :=
  {| App.combine := compose;
     App.generate := fun combinedImage => settle (fst (generation combinedImage)) |}.
End Wiring.

End EndToEnd.

(* ===================================================================== *)
(** * Sample inputs                                                       *)
(* ===================================================================== *)

Module Sample.
Import Js.

Definition square : Compositor.Image :=
  {| Compositor.img_width := 100; Compositor.img_height := 100 |}.

Definition portrait : Compositor.Image :=
  {| Compositor.img_width := 3; Compositor.img_height := 7 |}.


Definition picture : UploadedImage :=
  {| base64 := Some "iVBORw0KGgo=";
     mimeType := "image/png";
     dataUrl := "data:image/png;base64,iVBORw0KGgo=" |}.

Definition text_file : ImageUploader.File :=
  {| ImageUploader.type := "text/plain";
     ImageUploader.read := Some "data:text/plain;base64,aGk=" |}.

Definition unreadable_file : ImageUploader.File :=
  {| ImageUploader.type := "image/png"; ImageUploader.read := None |}.

Definition job_pending : GeminiService.Operation :=
  {| GeminiService.done := false; GeminiService.response := None |}.

Definition job_done (link : option string) : GeminiService.Operation :=
  {| GeminiService.done := true;
     GeminiService.response :=
       Some {| GeminiService.generatedVideos :=
                 Some [ {| GeminiService.video :=
                             Some {| GeminiService.uri := link |} |} ] |} |}.

(** A provider whose job is pending at the submission and at the first
    [n] status queries, and done, with locator [link], from then on. *)
Definition provider (n : nat) (link : option string) : GeminiService.Remote :=
  {| GeminiService.submit := fun _ => Some (inr job_pending);
     GeminiService.status_query :=
       fun k => Some (inr (if (k <? n)%nat then job_pending else job_done link));
     GeminiService.fetch :=
       fun _ => Some (inr {| GeminiService.ok := true;
                             GeminiService.statusText := "OK" |});
     GeminiService.blob := fun _ => Some (inr []);
     GeminiService.object_url := fun _ => "blob:video" |}.

(** A provider whose job is done at the submission, and a browser that
    decodes every source to the 100 x 100 image. *)
Definition provider_immediate (link : option string) : GeminiService.Remote :=
  {| GeminiService.submit := fun _ => Some (inr (job_done link));
     GeminiService.status_query := fun _ => None;
     GeminiService.fetch :=
       fun _ => Some (inr {| GeminiService.ok := true;
                             GeminiService.statusText := "OK" |});
     GeminiService.blob := fun _ => Some (inr []);
     GeminiService.object_url := fun _ => "blob:video" |}.

Definition encoder (canvas : Compositor.Canvas) (type : string)
    (quality : Compositor.number) : string :=
  "data:image/jpeg;base64,/9j/4AAQ".

Definition browser_compositor : string -> string -> option (Settled UploadedImage) :=
  Compositor.combineImages encoder true (fun _ => Some square)
    [Compositor.Left; Compositor.Right].

(** The component after two uploads, and after the click on Generate
    that follows them. *)
Definition both_uploaded : App.System :=
  App.after
    (App.after App.mount (App.Image_upload App.LeftPerson (Some picture)))
    (App.Image_upload App.RightPerson (Some picture)).

Definition generating : App.System := App.after both_uploaded App.Click_generate.

End Sample.

(* ===================================================================== *)
(** * Further vocabulary for the behaviour of the code                    *)
(* ===================================================================== *)

Module Behaviour.
Import Js.

(** Whether a string holds a comma. *)
Fixpoint has_comma (s : string) : bool :=
  match s with
  | EmptyString => false
  | String c rest => Ascii.eqb c "," || has_comma rest
  end.

(** The message of the [onerror] handler of each image (lines 55 and 57
    of App.tsx). *)
Definition load_error_message (side : Compositor.Side) : string :=
  match side with
  | Compositor.Left => "Failed to load left image."
  | Compositor.Right => "Failed to load right image."
  end.

(** The state of the promise executor after the load events [events]. *)
Definition events_from
    (toDataURL : Compositor.Canvas -> string -> Compositor.number -> string)
    (context2d : bool) (leftImage rightImage : Compositor.Image)
    (events : list Compositor.LoadEvent) (st : Compositor.Loading)
  : Compositor.Loading :=
  fold_left
    (fun st ev => Compositor.dispatch toDataURL context2d leftImage rightImage ev st)
    events st.

Definition loaded (side : Compositor.Side) (st : Compositor.Loading) : bool :=
  match side with
  | Compositor.Left => Compositor.leftLoaded st
  | Compositor.Right => Compositor.rightLoaded st
  end.

Definition other (side : Compositor.Side) : Compositor.Side :=
  match side with
  | Compositor.Left => Compositor.Right
  | Compositor.Right => Compositor.Left
  end.

(** What the promise of [combineImages] can be after the events [events],
    and what has happened by then. *)
Definition outcome_ok
    (toDataURL : Compositor.Canvas -> string -> Compositor.number -> string)
    (context2d : bool) (leftImage rightImage : Compositor.Image)
    (events : list Compositor.LoadEvent) (st : Compositor.Loading) : Prop :=
  (Compositor.leftLoaded st = true -> In (Compositor.onload Compositor.Left) events) /\
  (Compositor.rightLoaded st = true -> In (Compositor.onload Compositor.Right) events) /\
  match Compositor.promise st with
  | None => True
  | Some (inl e) =>
      (exists side, e = JsError (load_error_message side)
                    /\ In (Compositor.onerror side) events)
      \/ (e = JsError "Could not get canvas context" /\ context2d = false
          /\ In (Compositor.onload Compositor.Left) events
          /\ In (Compositor.onload Compositor.Right) events)
  | Some (inr image) =>
      context2d = true /\
      In (Compositor.onload Compositor.Left) events /\
      In (Compositor.onload Compositor.Right) events /\
      let dataUrl := toDataURL (Compositor.composite leftImage rightImage)
                       Compositor.encoding_type Compositor.encoding_quality in
      image = {| base64 := nth_error (split "," dataUrl) 1;
                 mimeType := "image/jpeg"; dataUrl := dataUrl |}
  end.

(** Whether a number is an infinity or NaN. *)
Definition unbounded (x : Compositor.number) : bool :=
  match FloatOps.Prim2SF x with
  | SpecFloat.S754_infinity _ | SpecFloat.S754_nan => true
  | _ => false
  end.

(** The image [combineImages] resolves with (lines 48-50 of App.tsx). *)
Definition combined
    (toDataURL : Compositor.Canvas -> string -> Compositor.number -> string)
    (leftImage rightImage : Compositor.Image) : UploadedImage :=
  let dataUrl := toDataURL (Compositor.composite leftImage rightImage)
                   Compositor.encoding_type Compositor.encoding_quality in
  {| base64 := nth_error (split "," dataUrl) 1;
     mimeType := "image/jpeg"; dataUrl := dataUrl |}.







(** The interval firing [n] times. *)
Definition ticks (n : nat) (s : App.State) : App.State := Nat.iter n App.tick s.

(** The App with [combineImages] and [generateHuggingVideo] themselves as
    its collaborators. *)
Definition browser_services (API_KEY : string) (R : GeminiService.Remote) (fuel : nat)
    (toDataURL : Compositor.Canvas -> string -> Compositor.number -> string)
    (context2d : bool) (decode : string -> option Compositor.Image)
    (order : list Compositor.Side) : App.Services :=
  EndToEnd.services API_KEY R fuel
    (Compositor.combineImages toDataURL context2d decode order).

(** The messages of the errors [generateHuggingVideo] throws (lines 51
    and 53 of geminiService.ts). *)
Definition service_message (m : string) : Prop :=
  (exists cause, m = ("An error occurred with the AI service: " ++ cause)%string)
  \/ m = "An unknown error occurred during video generation.".

(** The messages of the errors [combineImages] rejects with (lines 29, 55
    and 57 of App.tsx). *)
Definition compositor_message (m : string) : Prop :=
  m = "Could not get canvas context"
  \/ m = "Failed to load left image."
  \/ m = "Failed to load right image.".

Definition is_log (a : GeminiService.Action) : bool :=
  match a with GeminiService.Logged _ _ => true | _ => false end.

(** The error [generateHuggingVideo] throws for a cause [e] (lines 50-53
    of geminiService.ts). *)
Definition wrapped (e : Thrown) : Thrown :=
  match e with
  | JsError m => JsError ("An error occurred with the AI service: " ++ m)%string
  | JsOther => JsError "An unknown error occurred during video generation."
  end.

(** A provider whose [n]-th status query (from 0) is rejected with [e],
    the job being pending until then. *)
Definition failing_provider (n : nat) (e : Thrown) : GeminiService.Remote :=
  {| GeminiService.submit := fun _ => Some (inr Sample.job_pending);
     GeminiService.status_query :=
       fun k => if (k <? n)%nat then Some (inr Sample.job_pending) else Some (inl e);
     GeminiService.fetch := fun _ => None;
     GeminiService.blob := fun _ => None;
     GeminiService.object_url := fun _ => "blob:none" |}.

(** A provider like [Sample.provider] whose download answers 403. *)
Definition forbidden_provider (n : nat) (link : string) : GeminiService.Remote :=
  {| GeminiService.submit := fun _ => Some (inr Sample.job_pending);
     GeminiService.status_query :=
       fun k => Some (inr (if (k <? n)%nat then Sample.job_pending
                           else Sample.job_done (Some link)));
     GeminiService.fetch :=
       fun _ => Some (inr {| GeminiService.ok := false;
                             GeminiService.statusText := "Forbidden" |});
     GeminiService.blob := fun _ => None;
     GeminiService.object_url := fun _ => "blob:none" |}.


Definition ready_once : App.System :=
  App.after
    (App.after Sample.generating (App.Combine_settles 0 (inr Sample.picture)))
    (App.Generate_settles 0 (inr "blob:video")).

Definition png_file : ImageUploader.File :=
  {| ImageUploader.type := "image/png";
     ImageUploader.read := Some "data:image/png;base64,iVBORw0KGgo=" |}.

Definition flat : Compositor.Image :=
  {| Compositor.img_width := 640; Compositor.img_height := 0 |}.

End Behaviour.

(* ===================================================================== *)
(** * Runs of async programs                                              *)
(* ===================================================================== *)

Section Runs.
Import Js.
Context {E : Type -> Type} {W : Type} (h : Handler E W).

Lemma run_bind {A B} (p : Prog E A) (f : A -> Prog E B) (w : W) :
  run h (bind p f) w =
  match run h p w with
  | (Returned a, w') => run h (f a) w'
  | (Threw e, w') => (Threw e, w')
  | (Pending, w') => (Pending, w')
  end.
Proof.
  revert w. induction p as [a|e|X ev k IH|]; intros w; simpl; try reflexivity.
  destruct (h X ev w) as [[r|] w']; [apply IH|reflexivity].
Qed.

Lemma run_try_catch {A} (p : Prog E A) (c : Thrown -> Prog E A) (w : W) :
  run h (try_catch p c) w =
  match run h p w with
  | (Returned a, w') => (Returned a, w')
  | (Threw e, w') => run h (c e) w'
  | (Pending, w') => (Pending, w')
  end.
Proof.
  revert w. induction p as [a|e|X ev k IH|]; intros w; simpl; try reflexivity.
  destruct (h X ev w) as [[r|] w']; [apply IH|reflexivity].
Qed.

Lemma run_try_finally {A} (p : Prog E A) (fin : Prog E unit) (w : W) :
  run h (try_finally p fin) w =
  match run h p w with
  | (Returned a, w') => run h (bind fin (fun _ => Ret a)) w'
  | (Threw e, w') => run h (bind fin (fun _ => Throw e)) w'
  | (Pending, w') => (Pending, w')
  end.
Proof.
  revert w. induction p as [a|e|X ev k IH|]; intros w; simpl; try reflexivity.
  destruct (h X ev w) as [[r|] w']; [apply IH|reflexivity].
Qed.

Lemma run_await {X} (ev : E X) (w : W) :
  run h (await ev) w =
  match h X ev w with
  | (Some (inr x), w') => (Returned x, w')
  | (Some (inl e), w') => (Threw e, w')
  | (None, w') => (Pending, w')
  end.
Proof. simpl. destruct (h X ev w) as [[[e|x]|] w']; reflexivity. Qed.

End Runs.

(* ===================================================================== *)
(** * Properties of the generation client                                 *)
(* ===================================================================== *)

Section PollOperation.
Import Js GeminiService.

Lemma waits_app t u : waits (t ++ u) = waits t ++ waits u.
Proof. unfold waits. apply flat_map_app. Qed.

Lemma status_queries_app t u :
  status_queries (t ++ u) = (status_queries t + status_queries u)%nat.
Proof. unfold status_queries. now rewrite filter_app, length_app. Qed.

Lemma waits_rounds os : waits (rounds os) = repeat 10000 (List.length os).
Proof. induction os as [|o os IH]; simpl; [reflexivity|]. now f_equal. Qed.

Lemma status_queries_rounds os : status_queries (rounds os) = List.length os.
Proof.
  induction os as [|o os IH]; [reflexivity|].
  change (rounds (o :: os)) with ([Waited 10000; Queried o] ++ rounds os).
  rewrite status_queries_app, IH. reflexivity.
Qed.

Lemma inspected_shift R w op op' k :
  status_query R (queries w) = Some (inr op') ->
  inspected R {| queries := S (queries w);
                 trace := trace w ++ [Waited 10000] ++ [Queried op] |} op' k
  = inspected R w op (S k).
Proof.
  intros Hq. destruct k as [|j]; simpl.
  - now rewrite Nat.add_0_r.
  - f_equal. lia.
Qed.

(** The loop, run against a job that is seen not done [N] times and
    done the time after. *)
Lemma pollOperation_rounds R N :
  forall fuel w op opN,
    (forall k, (k < N)%nat ->
               exists o, inspected R w op k = Some (inr o) /\ done o = false) ->
    inspected R w op N = Some (inr opN) ->
    done opN = true ->
    (N <= fuel)%nat ->
    exists os,
      List.length os = N /\
      Forall (fun o => done o = false) os /\
      run (serve R) (pollOperation fuel op) w
      = (Returned opN,
         {| queries := queries w + N; trace := trace w ++ rounds os |}).
Proof.
  induction N as [|N IH]; intros fuel w op opN Hnot Hlast Hdone Hfuel.
  - exists []. simpl in Hlast. injection Hlast as ->.
    repeat split; [constructor|].
    destruct fuel; simpl; rewrite Hdone; simpl;
      rewrite Nat.add_0_r, app_nil_r; now destruct w.
  - destruct fuel as [|fuel]; [lia|].
    destruct (Hnot 0%nat ltac:(lia)) as (o0 & H0 & Hd0).
    simpl in H0. injection H0 as <-.
    assert (Hq : exists op', status_query R (queries w) = Some (inr op')).
    { destruct N as [|N'].
      - exists opN. simpl in Hlast. now rewrite Nat.add_0_r in Hlast.
      - destruct (Hnot 1%nat ltac:(lia)) as (o1 & H1 & _).
        exists o1. simpl in H1. now rewrite Nat.add_0_r in H1. }
    destruct Hq as (op' & Hq).
    set (w1 := {| queries := S (queries w);
                  trace := trace w ++ [Waited 10000] ++ [Queried op] |}).
    destruct (IH fuel w1 op' opN) as (os & Hlen & Hall & Hrun).
    + intros k Hk. unfold w1. rewrite inspected_shift by exact Hq.
      apply Hnot. lia.
    + unfold w1. rewrite inspected_shift by exact Hq. exact Hlast.
    + exact Hdone.
    + lia.
    + exists (op :: os). split; [simpl; now f_equal|].
      split; [now constructor|].
      simpl. rewrite Hd0. simpl. unfold note. simpl. rewrite Hq.
      fold w1 in Hrun. unfold w1 in *. simpl in *.
      rewrite <- app_assoc. simpl. rewrite <- app_assoc in Hrun. simpl in Hrun.
      rewrite Hrun. f_equal. f_equal. lia.
Qed.

Lemma no_fetch_rounds os : forallb (fun a => negb (is_fetch a)) (rounds os) = true.
Proof. induction os as [|o os IH]; simpl; auto. Qed.

(** A job that completes without a result locator: the run throws after
    the polling, and its trace holds no fetch. *)
Lemma generateHuggingVideo_no_link API_KEY R N fuel w combinedImage operation finalOperation :
  submit R (request combinedImage) = Some (inr operation) ->
  (forall k, (k < N)%nat ->
     exists o, inspected R w operation k = Some (inr o) /\ done o = false) ->
  inspected R w operation N = Some (inr finalOperation) ->
  done finalOperation = true ->
  (N <= fuel)%nat ->
  truthy_string (downloadLink finalOperation) = false ->
  exists t,
    run (serve R) (generateHuggingVideo API_KEY fuel combinedImage) w
    = (Threw (JsError no_link_message), {| queries := queries w + N; trace := trace w ++ t |})
    /\ forallb (fun a => negb (is_fetch a)) t = true.
Proof.
  intros Hsub Hnot Hlast Hdone Hfuel Hlink.
  destruct (pollOperation_rounds R N fuel (note (Submitted (request combinedImage)) w)
              operation finalOperation) as (os & Hlen & Hall & Hrun); auto.
  exists ([Submitted (request combinedImage)] ++ rounds os
          ++ [Logged "Error generating video:"
                (JsError "Video generation failed: no download link provided.")]).
  split.
  - unfold generateHuggingVideo, generateHuggingVideo_body.
    rewrite run_try_catch, run_bind, run_await.
    cbn [serve]. rewrite Hsub.
    rewrite run_bind, Hrun, Hlink. cbn.
    unfold note. cbn. rewrite <- !app_assoc. reflexivity.
  - rewrite !forallb_app, no_fetch_rounds. reflexivity.
Qed.

End PollOperation.



(* ===================================================================== *)
(** * Properties of the compositor                                        *)
(* ===================================================================== *)

Section Composite.
Import Js Compositor.
Local Open Scope Q_scope.

Lemma magnitude_positive m e : 0 < magnitude m e.
Proof.
  unfold magnitude. destruct (Z.leb_spec 0 e) as [He|He].
  - change 0 with (inject_Z 0). rewrite <- Zlt_Qlt.
    apply Z.mul_pos_pos; [apply Z.pow_pos_nonneg|]; lia.
  - reflexivity.
Qed.

Lemma magnitude_floor m e :
  Qfloor (magnitude m e)
  = if (0 <=? e)%Z then (2 ^ e * Z.pos m)%Z else (Z.pos m / 2 ^ (- e))%Z.
Proof.
  unfold magnitude. destruct (Z.leb_spec 0 e) as [He|He].
  - apply Qfloor_Z.
  - cbn [Qfloor]. f_equal. rewrite Pos2Z.inj_pow. f_equal.
    apply Z2Pos.id. lia.
Qed.

(** The conversion to [unsigned long] keeps the integer part of a
    non-negative number below 2^32. *)
Lemma to_unsigned_long_floor x q :
  value x = Some q -> 0 <= q -> q < inject_Z (2 ^ 32) ->
  to_unsigned_long x = Qfloor q.
Proof.
  unfold value, to_unsigned_long.
  destruct (FloatOps.Prim2SF x) as [s|s| |s m e]; try discriminate.
  - intros [= <-] _ _. reflexivity.
  - intros [= <-] Hpos Hlt. rewrite Qred_correct in Hpos, Hlt.
    rewrite (Qfloor_comp _ _ (Qred_correct _)).
    destruct s.
    + exfalso. pose proof (magnitude_positive m e) as Hm.
      apply (Qopp_lt_compat 0) in Hm.
      exact (Qlt_not_le _ _ Hm Hpos).
    + rewrite <- magnitude_floor.
      apply Z.mod_small. split.
      * change 0%Z with (Qfloor 0). now apply Qfloor_resp_le.
      * rewrite Zlt_Qlt. eapply Qle_lt_trans; [apply Qfloor_le|exact Hlt].
Qed.

Lemma composite_width leftImage rightImage :
  canvas_width (composite leftImage rightImage)
  = to_unsigned_long
      (PrimFloat.add (leftScaledWidth leftImage) (rightScaledWidth rightImage)).
Proof. reflexivity. Qed.

Lemma composite_height leftImage rightImage :
  canvas_height (composite leftImage rightImage) = 720%Z.
Proof. reflexivity. Qed.

(** The canvas is at most as wide as the sum the code computed, and less
    than one pixel narrower. *)
Lemma composite_width_bounds leftImage rightImage q :
  value (PrimFloat.add (leftScaledWidth leftImage) (rightScaledWidth rightImage))
  = Some q ->
  0 <= q -> q < inject_Z (2 ^ 32) ->
  inject_Z (canvas_width (composite leftImage rightImage)) <= q
  /\ q < inject_Z (canvas_width (composite leftImage rightImage) + 1).
Proof.
  intros Hq Hpos Hlt.
  rewrite composite_width, (to_unsigned_long_floor _ q Hq Hpos Hlt).
  split; [apply Qfloor_le|apply Qlt_floor].
Qed.

End Composite.






(* ===================================================================== *)
(** * Properties of the upload slots                                      *)
(* ===================================================================== *)

Section Uploads.
Import Js.

(** A report of an uploader leaves everything but its slot alone. *)
Lemma onImageUpload_frame slot image s :
  App.slot_input slot (App.onImageUpload slot image s) = image /\
  App.workflowState (App.onImageUpload slot image s) = App.workflowState s /\
  App.error (App.onImageUpload slot image s) = App.error s /\
  App.isLoading (App.onImageUpload slot image s) = App.isLoading s /\
  App.generatedVideoUrl (App.onImageUpload slot image s) = App.generatedVideoUrl s.
Proof. destruct slot; repeat split. Qed.

Lemma commit_same_loading s s' ref w :
  App.isLoading s' = App.isLoading s ->
  App.commit (App.isLoading s) s' ref w = (ref, w).
Proof. intros H. unfold App.commit. now rewrite H, Bool.eqb_reflx. Qed.

Lemma Image_upload_app sys slot image :
  App.app (App.after sys (App.Image_upload slot image))
  = if App.mounted sys then App.onImageUpload slot image (App.app sys)
    else App.app sys.
Proof.
  unfold App.after, App.step, App.update_app.
  destruct slot, (App.mounted sys); try reflexivity.
  - rewrite commit_same_loading by reflexivity. reflexivity.
  - rewrite commit_same_loading by reflexivity. reflexivity.
Qed.

End Uploads.

(** C8.  A file whose declared type does not start with image/, or whose
    read fails, is dealt with inside its upload slot: the uploader ends with
    a local error message (the invalid-image message for the first, the
    read-failure message for the second), it reports an absent image exactly
    once, so the slot's input in the App is absent, and the workflow state
    of the App (hence its error, which alone makes it Failed) is what it was
    before, also when the report reaches the App as an event. *)
Theorem decode_error_stays_in_slot
    (slot : App.Slot) (file : ImageUploader.File)
    (st : ImageUploader.State) (s : App.State) :
  Js.startsWith (ImageUploader.type file) "image/" = false
  \/ ImageUploader.read file = None ->
  let st' := fst (ImageUploader.file_chosen (Some file) st) in
  let reports := snd (ImageUploader.file_chosen (Some file) st) in
  let s' := App.uploads slot reports s in
  ImageUploader.error st'
  = Some (if Js.startsWith (ImageUploader.type file) "image/"
          then "Failed to read the file."
          else "Please upload a valid image file (PNG, JPG, etc.).") /\
  reports = [None] /\
  App.slot_input slot s' = None /\
  App.workflowState s' = App.workflowState s /\
  App.error s' = App.error s /\
  (forall sys,
     App.workflowState (App.app (App.after sys (App.Image_upload slot None)))
     = App.workflowState (App.app sys)).
Proof.
  intros Hbad st' reports s'.
  assert (Hrun : ImageUploader.error st'
                 = Some (if Js.startsWith (ImageUploader.type file) "image/"
                         then "Failed to read the file."
                         else "Please upload a valid image file (PNG, JPG, etc.).")
                 /\ reports = [None]).
  { subst st' reports. unfold ImageUploader.file_chosen, ImageUploader.handleFileChange.
    destruct (Js.startsWith (ImageUploader.type file) "image/") eqn:Htype; cbn.
    - destruct Hbad as [Hbad|Hread]; [discriminate|].
      unfold ImageUploader.readAsDataURL. rewrite Hread. cbn. auto.
    - auto. }
  destruct Hrun as [Herr Hreports].
  split; [exact Herr|]. split; [exact Hreports|].
  subst s'. rewrite Hreports. cbn [App.uploads fold_left].
  destruct (onImageUpload_frame slot None s) as (H1 & H2 & H3 & _).
  repeat split; try assumption.
  intros sys. rewrite Image_upload_app.
  destruct (App.mounted sys); [apply onImageUpload_frame|reflexivity].
Qed.

Lemma decode_error_stays_in_slot_witness :
  ImageUploader.error
    (fst (ImageUploader.file_chosen (Some Sample.text_file) ImageUploader.initial))
  = Some "Please upload a valid image file (PNG, JPG, etc.)." /\
  ImageUploader.error
    (fst (ImageUploader.file_chosen (Some Sample.unreadable_file) ImageUploader.initial))
  = Some "Failed to read the file.".
Proof.
  split.
  - apply (decode_error_stays_in_slot App.LeftPerson Sample.text_file
             ImageUploader.initial App.initial).
    left. reflexivity.
  - apply (decode_error_stays_in_slot App.RightPerson Sample.unreadable_file
             ImageUploader.initial App.initial).
    right. reflexivity.
Defined.

(* ===================================================================== *)
(** * Properties of handleGenerateVideo                                   *)
(* ===================================================================== *)

Section Handler.
Import Js App.

(** Every way an invocation with both inputs can go. *)
Lemma invoke_cases sv s l r :
  leftImage s = Some l -> rightImage s = Some r ->
  let s0 := attempt_state s in
  let c1 := (Combine (dataUrl l) (dataUrl r), s0) in
  invoke sv s =
  match combine sv (dataUrl l) (dataUrl r) with
  | None => (Pending, {| state := s0; calls := [c1] |})
  | Some (inl e) =>
      (Returned tt,
       {| state := setIsLoading false (setError (Some (failure_message e)) s0);
          calls := [c1] |})
  | Some (inr img) =>
      match generate sv img with
      | None => (Pending, {| state := s0; calls := [c1; (Generate img, s0)] |})
      | Some (inl e) =>
          (Returned tt,
           {| state := setIsLoading false (setError (Some (failure_message e)) s0);
              calls := [c1; (Generate img, s0)] |})
      | Some (inr url) =>
          (Returned tt,
           {| state := setIsLoading false (setGeneratedVideoUrl (Some url) s0);
              calls := [c1; (Generate img, s0)] |})
      end
  end.
Proof.
  intros Hl Hr. unfold invoke. rewrite Hl, Hr. cbn.
  destruct (combine sv (dataUrl l) (dataUrl r)) as [[e|img]|]; cbn; try reflexivity.
  destruct (generate sv img) as [[e|url]|]; reflexivity.
Qed.

End Handler.

(** C4.  A submit with the left or the right input absent returns at once:
    it calls neither the compositor nor the generation client, awaits
    nothing, and changes the state in one place only, the error, which
    becomes the request to upload both images. *)
Theorem submit_without_inputs (sv : App.Services) (s : App.State) :
  App.leftImage s = None \/ App.rightImage s = None ->
  App.invoke sv s
  = (Js.Returned tt,
     {| App.state := App.setError (Some "Please upload both images before generating.") s;
        App.calls := [] |}) /\
  App.advance true (App.handleGenerateVideo (App.leftImage s) (App.rightImage s)) s
  = (App.setError (Some "Please upload both images before generating.") s, None).
Proof.
  intros Habsent. unfold App.invoke.
  destruct (App.leftImage s) as [l|], (App.rightImage s) as [r|];
    try (split; reflexivity).
  destruct Habsent; discriminate.
Qed.

Lemma submit_without_inputs_witness :
  App.invoke {| App.combine := fun _ _ => None; App.generate := fun _ => None |}
    App.initial
  = (Js.Returned tt,
     {| App.state :=
          App.setError (Some "Please upload both images before generating.") App.initial;
        App.calls := [] |}).
Proof.
  apply (submit_without_inputs
           {| App.combine := fun _ _ => None; App.generate := fun _ => None |}
           App.initial).
  left. reflexivity.
Defined.

(** C9.  An invocation with both inputs calls the compositor first, in a
    state whose error and video reference have been cleared (and whose
    loading flag is set); the video reference it leaves is one the
    generation client returned in this very attempt; and whenever it leaves
    the workflow Failed, the video reference is null, whatever it was
    before. *)
Theorem failed_shows_no_video
    (sv : App.Services) (s : App.State) (l r : UploadedImage) :
  App.leftImage s = Some l ->
  App.rightImage s = Some r ->
  let final := snd (App.invoke sv s) in
  (exists later,
     App.calls final
     = (App.Combine (dataUrl l) (dataUrl r),
        App.setGeneratedVideoUrl None (App.setError None (App.setIsLoading true s)))
       :: later) /\
  (forall url,
     App.generatedVideoUrl (App.state final) = Some url ->
     exists img,
       App.combine sv (dataUrl l) (dataUrl r) = Some (inr img) /\
       App.generate sv img = Some (inr url)) /\
  (forall message,
     App.workflowState (App.state final) = App.Failed message ->
     App.generatedVideoUrl (App.state final) = None).
Proof.
  intros Hl Hr final. subst final. rewrite (invoke_cases sv s l r Hl Hr).
  destruct (App.combine sv (dataUrl l) (dataUrl r)) as [[e|img]|]; cbn;
    [|destruct (App.generate sv img) as [[e|url]|] eqn:Hg; cbn|];
    (split; [eexists; reflexivity|split]);
    try (intros ? ?; discriminate); try (intros ? ?; reflexivity).
  intros url' [= <-]. now exists img.
Qed.

Lemma failed_shows_no_video_witness :
  let sv := {| App.combine := fun _ _ => Some (inl (Js.JsError "Failed to load left image."));
               App.generate := fun _ => None |} in
  let stale :=
    App.setGeneratedVideoUrl (Some "blob:earlier")
      (App.setRightImage (Some Sample.picture)
         (App.setLeftImage (Some Sample.picture) App.initial)) in
  App.workflowState (App.state (snd (App.invoke sv stale)))
  = App.Failed "Failed to load left image." /\
  App.generatedVideoUrl (App.state (snd (App.invoke sv stale))) = None.
Proof.
  intros sv stale. split; [reflexivity|].
  apply (failed_shows_no_video sv stale Sample.picture Sample.picture
           eq_refl eq_refl) with (message := "Failed to load left image.").
  reflexivity.
Defined.

(** C10.  An invocation with both inputs that settles, whichever way
    (video obtained, composition failed, generation failed), returns
    normally with the loading flag cleared, so the workflow is not Busy;
    and it settles as soon as the promises it awaits do. *)
Theorem loading_flag_cleared
    (sv : App.Services) (s : App.State) (l r : UploadedImage) :
  App.leftImage s = Some l ->
  App.rightImage s = Some r ->
  (fst (App.invoke sv s) <> Js.Pending ->
   fst (App.invoke sv s) = Js.Returned tt /\
   App.isLoading (App.state (snd (App.invoke sv s))) = false /\
   forall message, App.workflowState (App.state (snd (App.invoke sv s)))
                   <> App.Busy message) /\
  (fst (App.invoke sv s) = Js.Pending <->
   App.combine sv (dataUrl l) (dataUrl r) = None \/
   exists img, App.combine sv (dataUrl l) (dataUrl r) = Some (inr img) /\
               App.generate sv img = None).
Proof.
  intros Hl Hr. rewrite (invoke_cases sv s l r Hl Hr).
  destruct (App.combine sv (dataUrl l) (dataUrl r)) as [[e|img]|]; cbn.
  - split; [intros _; split; [reflexivity|split; [reflexivity|discriminate]]|].
    split; [discriminate|]. intros [H|(x & H & _)]; discriminate.
  - destruct (App.generate sv img) as [[e|url]|] eqn:Hg; cbn.
    + split; [intros _; split; [reflexivity|split; [reflexivity|discriminate]]|].
      split; [discriminate|]. intros [H|(x & [= <-] & H)]; congruence.
    + split; [intros _; split; [reflexivity|split; [reflexivity|discriminate]]|].
      split; [discriminate|]. intros [H|(x & [= <-] & H)]; congruence.
    + split; [intros H; now destruct H|].
      split; [|reflexivity]. intros _. right. now exists img.
  - split; [intros H; now destruct H|].
    split; [|reflexivity]. intros _. now left.
Qed.

Lemma loading_flag_cleared_witness :
  let sv := {| App.combine := fun _ _ => Some (inr Sample.picture);
               App.generate := fun _ => Some (inl Js.JsOther) |} in
  let s := App.setRightImage (Some Sample.picture)
             (App.setLeftImage (Some Sample.picture) App.initial) in
  App.isLoading (App.state (snd (App.invoke sv s))) = false.
Proof.
  intros sv s.
  apply (proj1 (loading_flag_cleared sv s Sample.picture Sample.picture
                  eq_refl eq_refl)).
  vm_compute. discriminate.
Defined.

(** C5.  When the job completes and its response holds no result locator
    (none, or an empty one), [generateHuggingVideo] throws without any
    fetch in its trace, and the invocation of the handler that awaited it
    ends, normally, in the Failed state, with no video reference and with
    the message that no download link was provided, as the service wraps
    it. *)
Theorem no_result_locator_fails
    (API_KEY : string) (R : GeminiService.Remote) (N fuel : nat)
    (compose : string -> string -> option (Js.Settled UploadedImage))
    (s : App.State) (l r combinedImage : UploadedImage)
    (operation finalOperation : GeminiService.Operation) :
  App.leftImage s = Some l ->
  App.rightImage s = Some r ->
  compose (dataUrl l) (dataUrl r) = Some (inr combinedImage) ->
  GeminiService.submit R (GeminiService.request combinedImage) = Some (inr operation) ->
  (forall k, (k < N)%nat ->
     exists o, GeminiService.inspected R GeminiService.fresh operation k = Some (inr o)
               /\ GeminiService.done o = false) ->
  GeminiService.inspected R GeminiService.fresh operation N = Some (inr finalOperation) ->
  GeminiService.done finalOperation = true ->
  (N <= fuel)%nat ->
  Js.truthy_string (GeminiService.downloadLink finalOperation) = false ->
  let generation := EndToEnd.generation API_KEY R fuel combinedImage in
  let attempt := App.invoke (EndToEnd.services API_KEY R fuel compose) s in
  fst generation = Js.Threw (Js.JsError GeminiService.no_link_message) /\
  forallb (fun a => negb (GeminiService.is_fetch a))
    (GeminiService.trace (snd generation)) = true /\
  fst attempt = Js.Returned tt /\
  App.workflowState (App.state (snd attempt))
  = App.Failed "An error occurred with the AI service: Video generation failed: no download link provided." /\
  App.generatedVideoUrl (App.state (snd attempt)) = None.
Proof.
  intros Hl Hr Hc Hsub Hnot Hlast Hdone Hfuel Hlink generation attempt.
  destruct (generateHuggingVideo_no_link API_KEY R N fuel GeminiService.fresh
              combinedImage operation finalOperation) as (t & Hrun & Hfetch); auto.
  assert (Hgen : generation
                 = (Js.Threw (Js.JsError GeminiService.no_link_message),
                    {| GeminiService.queries := N; GeminiService.trace := t |})).
  { subst generation. unfold EndToEnd.generation. rewrite Hrun. reflexivity. }
  subst attempt. rewrite (invoke_cases _ s l r Hl Hr).
  cbn [EndToEnd.services App.combine App.generate]. rewrite Hc.
  fold generation. rewrite Hgen. cbn. auto.
Qed.

Lemma no_result_locator_fails_witness :
  let s := App.setRightImage (Some Sample.picture)
             (App.setLeftImage (Some Sample.picture) App.initial) in
  let attempt :=
    App.invoke (EndToEnd.services "KEY" (Sample.provider 1 None) 5
                  (fun _ _ => Some (inr Sample.picture))) s in
  App.workflowState (App.state (snd attempt))
  = App.Failed "An error occurred with the AI service: Video generation failed: no download link provided.".
Proof.
  intros s attempt.
  apply (no_result_locator_fails "KEY" (Sample.provider 1 None) 2 5
           (fun _ _ => Some (inr Sample.picture)) s
           Sample.picture Sample.picture Sample.picture
           Sample.job_pending (Sample.job_done None));
    try reflexivity; try lia.
  intros k Hk. destruct k as [|[|k]]; [eexists; split; reflexivity ..|lia].
Defined.

(* ===================================================================== *)
(** * Properties of the component in the event loop                       *)
(* ===================================================================== *)

Section EventLoop.
Import Js App.

(** ** The handler, await by await *)

Lemma advance_start m l r s :
  advance m (handleGenerateVideo (Some l) (Some r)) s
  = (if m then setGeneratedVideoUrl None (setError None (setIsLoading true s)) else s,
     Some (AwaitingCombine (dataUrl l) (dataUrl r) after_combine)).
Proof. destruct m; reflexivity. Qed.

Lemma advance_after_combine_ok m img s :
  advance m (after_combine (inr img)) s
  = (s, Some (AwaitingGenerate img after_generate)).
Proof. reflexivity. Qed.

Lemma advance_after_combine_fails m e s :
  advance m (after_combine (inl e)) s
  = (if m then setIsLoading false
                 (setError (Some (message_or "An unexpected error occurred." e)) s)
     else s, None).
Proof. destruct m; reflexivity. Qed.

Lemma advance_after_generate_ok m url s :
  advance m (after_generate (inr url)) s
  = (if m then setIsLoading false (setGeneratedVideoUrl (Some url) s) else s, None).
Proof. destruct m; reflexivity. Qed.

Lemma advance_after_generate_fails m e s :
  advance m (after_generate (inl e)) s
  = (if m then setIsLoading false
                 (setError (Some (message_or "An unexpected error occurred." e)) s)
     else s, None).
Proof. destruct m; reflexivity. Qed.

(** ** The ticker *)

Lemma loadingMessages_distinct i :
  (i < List.length loadingMessages)%nat ->
  indexOf loadingMessages (nth i loadingMessages "") = Z.of_nat i.
Proof.
  intros Hi. do 7 (destruct i as [|i]; [reflexivity|]). cbn in Hi. lia.
Qed.

(** A tick moves from message [i] to message [i + 1], and from the last
    to the first. *)
Lemma next_message_nth i :
  (i < List.length loadingMessages)%nat ->
  next_message (nth i loadingMessages "")
  = nth (S i mod List.length loadingMessages) loadingMessages "".
Proof.
  intros Hi. do 7 (destruct i as [|i]; [reflexivity|]). cbn in Hi. lia.
Qed.

Lemma next_message_unknown prev :
  indexOf loadingMessages prev = -1 ->
  next_message prev = nth 0 loadingMessages "".
Proof. intros H. unfold next_message. rewrite H. reflexivity. Qed.

Lemma commit_unchanged s s' ref w :
  isLoading s' = isLoading s -> commit (isLoading s) s' ref w = (ref, w).
Proof. intros H. unfold commit. now rewrite H, Bool.eqb_reflx. Qed.

Lemma clearInterval_single handle period next :
  clearInterval handle {| intervals := [(handle, period)]; next_handle := next |}
  = {| intervals := []; next_handle := next |}.
Proof. unfold clearInterval. cbn. now rewrite Z.eqb_refl. Qed.

Lemma truthy_handle handle : 0 < handle -> truthy_number (Some handle) = true.
Proof. intros H. cbn. destruct (Z.eqb_spec handle 0); [lia|reflexivity]. Qed.

(** Entering the loading state starts one interval of 3000 ms. *)
Lemma commit_enter s s' next :
  isLoading s = false -> isLoading s' = true ->
  commit (isLoading s) s' None {| intervals := []; next_handle := next |}
  = (Some next, {| intervals := [(next, 3000)]; next_handle := next + 1 |}).
Proof. intros H H'. unfold commit. rewrite H, H'. reflexivity. Qed.

(** Leaving it clears that interval. *)
Lemma commit_leave s s' handle next :
  0 < handle ->
  isLoading s = true -> isLoading s' = false ->
  commit (isLoading s) s' (Some handle)
    {| intervals := [(handle, 3000)]; next_handle := next |}
  = (None, {| intervals := []; next_handle := next |}).
Proof.
  intros Hh H H'. unfold commit. rewrite H, H'. cbn [Bool.eqb].
  unfold cleanup, effect. rewrite (truthy_handle handle Hh).
  rewrite clearInterval_single. reflexivity.
Qed.

(** ** The invariant *)

Lemma invariant_mount : invariant mount.
Proof.
  split.
  - now left.
  - intros H. now elim H.
  - intros _ _. reflexivity.
  - intros H. reflexivity.
  - cbn. repeat split; reflexivity.
  - exists 0%nat. split; [cbn; lia|reflexivity].
Qed.

Lemma update_app_loading_kept sys f :
  (forall s, isLoading (f s) = isLoading s) ->
  fst (update_app sys f)
  = if mounted sys then
      {| mounted := true; app := f (app sys); intervalRef := intervalRef sys;
         window := window sys; in_flight := in_flight sys |}
    else sys.
Proof.
  intros Hf. unfold update_app. destruct (mounted sys); [|reflexivity].
  now rewrite commit_unchanged by apply Hf.
Qed.

Lemma invariant_update sys f :
  invariant sys ->
  (forall s, isLoading (f s) = isLoading s) ->
  (forall s, generatedVideoUrl s = None -> generatedVideoUrl (f s) = None) ->
  (forall s, error s = None -> error (f s) = None) ->
  (forall s, failed_ok s -> failed_ok (f s)) ->
  (forall s, (exists i, (i < List.length loadingMessages)%nat /\
                        loadingMessage s = nth i loadingMessages "") ->
             exists i, (i < List.length loadingMessages)%nat /\
                       loadingMessage (f s) = nth i loadingMessages "") ->
  invariant (fst (update_app sys f)).
Proof.
  intros [Hfl Hbusy Hidle Hfailed Htick Hmsg] Hload Hvideo Herror Hfail Hmessage.
  rewrite update_app_loading_kept by exact Hload.
  destruct (mounted sys) eqn:Hm; [|now split].
  split.
  - exact Hfl.
  - intros Hne. destruct (Hbusy Hne) as (H1 & H2 & H3). cbn.
    rewrite Hload. auto.
  - intros _ Hnone. cbn. rewrite Hload. now apply Hidle.
  - apply Hfail, Hfailed.
  - unfold ticker_ok in *. cbn. rewrite Hm in Htick. rewrite Hload. exact Htick.
  - apply Hmessage, Hmsg.
Qed.

Lemma message_ok_tick s :
  (exists i, (i < List.length loadingMessages)%nat /\
             loadingMessage s = nth i loadingMessages "") ->
  exists i, (i < List.length loadingMessages)%nat /\
            loadingMessage (tick s) = nth i loadingMessages "".
Proof.
  intros (i & Hi & Hs). exists (S i mod List.length loadingMessages)%nat. split.
  - apply Nat.mod_upper_bound. discriminate.
  - cbn [tick setLoadingMessage loadingMessage]. rewrite Hs.
    now apply next_message_nth.
Qed.

(** What [proceed] leaves when the continuation ends or suspends without
    touching the loading flag. *)
Lemma flight_cases sys :
  flight_ok sys ->
  forall n p, nth_error (in_flight sys) n = Some p ->
              n = 0%nat /\ in_flight sys = [p] /\
              ((exists l r, p = AwaitingCombine l r after_combine) \/
               (exists img, p = AwaitingGenerate img after_generate)).
Proof.
  intros [H|[(l & r & H)|(img & H)]] n p Hn; rewrite H in *.
  - now destruct n.
  - destruct n as [|n]; [|now destruct n]. injection Hn as <-. eauto 6.
  - destruct n as [|n]; [|now destruct n]. injection Hn as <-. eauto 6.
Qed.

Lemma window_eta w : w = {| intervals := intervals w; next_handle := next_handle w |}.
Proof. now destruct w. Qed.

(** The attempt ends: the flag is cleared and the interval with it. *)
Lemma invariant_finish sys p g :
  invariant sys ->
  in_flight sys <> [] ->
  (forall m s, advance m p s = (if m then g s else s, None)) ->
  (forall s, isLoading (g s) = false) ->
  (forall s, loadingMessage (g s) = loadingMessage s) ->
  (forall s, generatedVideoUrl s = None -> error s = None -> failed_ok (g s)) ->
  invariant (fst (proceed sys [] p)) /\
  snd (proceed sys [] p) = [] /\
  in_flight (fst (proceed sys [] p)) = [] /\
  (mounted sys = true ->
   app (fst (proceed sys [] p)) = g (app sys) /\
   intervals (window (fst (proceed sys [] p))) = []).
Proof.
  intros [Hfl Hbusy Hidle Hfailed Htick Hmsg] Hne Hadv Hg Hm Hfail.
  destruct (Hbusy Hne) as (Hload & Hvideo & Herror).
  unfold proceed. rewrite Hadv.
  destruct Htick as [Hnext Htick].
  destruct (mounted sys) eqn:Hmounted.
  - rewrite Hload in Htick. destruct Htick as (handle & Href & Hrange & Hivs).
    rewrite Href, (window_eta (window sys)), Hivs.
    rewrite (commit_leave (app sys) (g (app sys)) handle) by (auto; lia).
    cbn. split; [|auto]. split; cbn.
    + now left.
    + intros H. now elim H.
    + intros _ _. apply Hg.
    + now apply Hfail.
    + unfold ticker_ok. cbn. rewrite Hg. auto.
    + destruct Hmsg as (i & Hi & Hs). exists i. cbn. now rewrite Hm.
  - cbn. split; [|repeat split; congruence]. split; cbn.
    + now left.
    + intros H. now elim H.
    + intros H. discriminate H.
    + exact Hfailed.
    + unfold ticker_ok. cbn. auto.
    + exact Hmsg.
Qed.

(** The attempt moves from its first await to its second. *)
Lemma invariant_combined sys img :
  invariant sys ->
  in_flight sys <> [] ->
  invariant (fst (proceed sys [] (after_combine (inr img)))) /\
  proceed sys [] (after_combine (inr img))
  = ({| mounted := mounted sys; app := app sys; intervalRef := intervalRef sys;
        window := window sys;
        in_flight := [AwaitingGenerate img after_generate] |},
     [Generate img]).
Proof.
  intros [Hfl Hbusy Hidle Hfailed Htick Hmsg] Hne.
  assert (Heq : proceed sys [] (after_combine (inr img))
                = ({| mounted := mounted sys; app := app sys;
                      intervalRef := intervalRef sys; window := window sys;
                      in_flight := [AwaitingGenerate img after_generate] |},
                   [Generate img])).
  { unfold proceed. rewrite advance_after_combine_ok.
    destruct (mounted sys); [|reflexivity].
    now rewrite commit_unchanged by reflexivity. }
  split; [|exact Heq]. rewrite Heq. cbn. split; cbn.
  - right. right. now exists img.
  - intros _. now apply Hbusy.
  - intros _ H. discriminate H.
  - exact Hfailed.
  - exact Htick.
  - exact Hmsg.
Qed.

(** A click that passes the gate of the view starts the one attempt. *)
Lemma invariant_started sys l r :
  invariant sys ->
  mounted sys = true ->
  isLoading (app sys) = false ->
  invariant (fst (proceed sys (in_flight sys) (handleGenerateVideo (Some l) (Some r)))) /\
  snd (proceed sys (in_flight sys) (handleGenerateVideo (Some l) (Some r)))
  = [Combine (dataUrl l) (dataUrl r)].
Proof.
  intros [Hfl Hbusy Hidle Hfailed Htick Hmsg] Hmounted Hload.
  assert (Hnone : in_flight sys = []).
  { destruct (in_flight sys) as [|p ps] eqn:E; [reflexivity|].
    assert (Hne : in_flight sys <> []) by (rewrite E; discriminate).
    destruct (Hbusy Hne) as (H & _). congruence. }
  unfold proceed. rewrite advance_start, Hmounted, Hnone.
  destruct Htick as [Hnext Htick]. rewrite Hmounted, Hload in Htick.
  destruct Htick as [Href Hivs].
  rewrite Href, (window_eta (window sys)), Hivs.
  rewrite (commit_enter (app sys)) by auto.
  cbn. split; [|reflexivity]. split; cbn.
  - right. left. exists (dataUrl l), (dataUrl r). reflexivity.
  - intros _. auto.
  - intros _ H. discriminate H.
  - intros H. reflexivity.
  - unfold ticker_ok. cbn. split; [lia|].
    exists (next_handle (window sys)). repeat split; lia.
  - exact Hmsg.
Qed.

(** The gate of the Generate button. *)
Lemma gate_open sys :
  mounted sys && inputs_shown (render (app sys))
    && negb (generate_disabled (render (app sys))) = true ->
  mounted sys = true /\ isLoading (app sys) = false /\
  truthy_string (generatedVideoUrl (app sys)) = false /\
  exists l r, leftImage (app sys) = Some l /\ rightImage (app sys) = Some r.
Proof.
  cbn. intros H.
  apply andb_prop in H as [H Hdis]. apply andb_prop in H as [Hm Hshown].
  apply andb_prop in Hshown as [Hvideo Hload].
  apply negb_true_iff in Hvideo, Hload, Hdis.
  apply orb_false_iff in Hdis as [Hdis _]. apply orb_false_iff in Hdis as [Hl Hr].
  apply negb_false_iff in Hl, Hr.
  destruct (leftImage (app sys)) as [l|]; [|discriminate].
  destruct (rightImage (app sys)) as [r|]; [|discriminate].
  eauto 8.
Qed.


Ltac failed_ok_tac :=
  unfold failed_ok; cbn; intros; solve [auto | congruence].

Lemma invariant_step sys ev : invariant sys -> invariant (after sys ev).
Proof.
  intros Hinv. unfold after.
  destruct ev as [| | |slot image|handle|n result|n result|]; cbn [step].
  - (* Click_generate *)
    destruct (mounted sys && inputs_shown (render (app sys))
              && negb (generate_disabled (render (app sys)))) eqn:Hgate;
      [|exact Hinv].
    apply gate_open in Hgate as (Hm & Hload & _ & l & r & Hl & Hr).
    rewrite Hl, Hr. now apply invariant_started.
  - (* Click_close_error *)
    destruct (present (error_shown (render (app sys)))); [|exact Hinv].
    apply invariant_update; auto; failed_ok_tac.
  - (* Click_create_another *)
    destruct (present (video_shown (render (app sys)))); [|exact Hinv].
    apply invariant_update; auto; failed_ok_tac.
  - (* Image_upload *)
    destruct slot; apply invariant_update; auto; failed_ok_tac.
  - (* Interval_fires *)
    destruct (running handle (window sys)); [|exact Hinv].
    apply invariant_update; auto using message_ok_tick; failed_ok_tac.
  - (* Combine_settles *)
    destruct (nth_error (in_flight sys) n) as [p|] eqn:Hn; [|exact Hinv].
    destruct (flight_cases sys (inv_flight sys Hinv) n p Hn)
      as (-> & Hone & [(l & r & ->)|(img & ->)]); [|exact Hinv].
    assert (Hne : in_flight sys <> []) by (rewrite Hone; discriminate).
    rewrite Hone. cbn [remove_nth firstn skipn app].
    destruct result as [e|img].
    + apply (invariant_finish sys _
               (fun s => setIsLoading false
                           (setError (Some (message_or "An unexpected error occurred." e)) s)));
        auto using advance_after_combine_fails; failed_ok_tac.
    + now apply invariant_combined.
  - (* Generate_settles *)
    destruct (nth_error (in_flight sys) n) as [p|] eqn:Hn; [|exact Hinv].
    destruct (flight_cases sys (inv_flight sys Hinv) n p Hn)
      as (-> & Hone & [(l & r & ->)|(img & ->)]); [exact Hinv|].
    assert (Hne : in_flight sys <> []) by (rewrite Hone; discriminate).
    rewrite Hone. cbn [remove_nth firstn skipn app].
    destruct result as [e|url].
    + apply (invariant_finish sys _
               (fun s => setIsLoading false
                           (setError (Some (message_or "An unexpected error occurred." e)) s)));
        auto using advance_after_generate_fails; failed_ok_tac.
    + apply (invariant_finish sys _
               (fun s => setIsLoading false (setGeneratedVideoUrl (Some url) s)));
        auto using advance_after_generate_ok; failed_ok_tac.
  - (* Unmount *)
    destruct (mounted sys) eqn:Hm; [|exact Hinv].
    destruct Hinv as [Hfl Hbusy Hidle Hfailed Htick Hmsg]. split; cbn; auto.
    { intros H. discriminate H. }
    unfold ticker_ok in *. cbn. rewrite Hm in Htick.
    destruct Htick as [Hnext Htick].
    destruct (isLoading (app sys)).
    + destruct Htick as (handle & Href & Hrange & Hivs).
      rewrite Href, (window_eta (window sys)), Hivs.
      unfold cleanup. rewrite truthy_handle by lia.
      rewrite clearInterval_single. cbn. auto.
    + destruct Htick as [Href Hivs]. rewrite Href. cbn. auto.
Qed.

Lemma proceed_app sys others p :
  app (fst (proceed sys others p)) = fst (advance (mounted sys) p (app sys)).
Proof.
  unfold proceed. destruct (advance (mounted sys) p (app sys)) as [s' susp].
  destruct (mounted sys); [destruct (commit _ _ _ _)|]; reflexivity.
Qed.

Lemma proceed_in_flight sys others p :
  in_flight (fst (proceed sys others p))
  = others ++ match snd (advance (mounted sys) p (app sys)) with
              | Some p' => [p']
              | None => []
              end.
Proof.
  unfold proceed. destruct (advance (mounted sys) p (app sys)) as [s' susp].
  destruct (mounted sys); [destruct (commit _ _ _ _)|]; reflexivity.
Qed.

Lemma proceed_mounted sys others p :
  mounted (fst (proceed sys others p)) = mounted sys.
Proof.
  unfold proceed. destruct (advance (mounted sys) p (app sys)) as [s' susp].
  destruct (mounted sys); [destruct (commit _ _ _ _)|]; reflexivity.
Qed.

(** The events of an attempt leave the state that [invoke] computes. *)
Lemma event_loop_agrees_with_invoke sv sys l r :
  mounted sys = true ->
  in_flight sys = [] ->
  isLoading (app sys) = false ->
  truthy_string (generatedVideoUrl (app sys)) = false ->
  leftImage (app sys) = Some l ->
  rightImage (app sys) = Some r ->
  app (after_all sys (attempt_events sv l r)) = state (snd (invoke sv (app sys))).
Proof.
  intros Hm Hnone Hload Hvideo Hl Hr.
  rewrite (invoke_cases sv (app sys) l r Hl Hr).
  unfold attempt_events, after_all. cbn [fold_left].
  set (s1 := after sys Click_generate).
  assert (H1 : app s1 = attempt_state (app sys)
               /\ mounted s1 = true
               /\ in_flight s1 = [AwaitingCombine (dataUrl l) (dataUrl r) after_combine]).
  { subst s1. unfold after. cbn [step]. cbn [render inputs_shown generate_disabled].
    rewrite Hm, Hload, Hvideo, Hl, Hr. cbn [present negb andb orb].
    rewrite proceed_app, proceed_in_flight, proceed_mounted, Hm, Hnone.
    rewrite advance_start. auto. }
  destruct H1 as (Happ1 & Hm1 & Hfl1).
  destruct (combine sv (dataUrl l) (dataUrl r)) as [[e|img]|]; cbn [fold_left state snd].
  - unfold after at 1. cbn [step]. rewrite Hfl1. cbn [nth_error remove_nth firstn skipn app].
    rewrite proceed_app, Hm1, advance_after_combine_fails, Happ1. reflexivity.
  - set (s2 := after s1 (Combine_settles 0 (inr img))).
    assert (H2 : app s2 = attempt_state (app sys)
                 /\ mounted s2 = true
                 /\ in_flight s2 = [AwaitingGenerate img after_generate]).
    { subst s2. unfold after at 1 2 3. cbn [step]. rewrite Hfl1.
      cbn [nth_error remove_nth firstn skipn app].
      rewrite proceed_app, proceed_in_flight, proceed_mounted, Hm1.
      rewrite advance_after_combine_ok. auto. }
    destruct H2 as (Happ2 & Hm2 & Hfl2).
    destruct (generate sv img) as [[e|url]|]; cbn [fold_left state snd]; [| |exact Happ2].
    + unfold after at 1. cbn [step]. rewrite Hfl2.
      cbn [nth_error remove_nth firstn skipn app].
      rewrite proceed_app, Hm2, advance_after_generate_fails, Happ2. reflexivity.
    + unfold after at 1. cbn [step]. rewrite Hfl2.
      cbn [nth_error remove_nth firstn skipn app].
      rewrite proceed_app, Hm2, advance_after_generate_ok, Happ2. reflexivity.
  - exact Happ1.
Qed.

Lemma reachable_invariant sys : reachable sys -> invariant sys.
Proof.
  induction 1 as [|sys ev _ IH]; [exact invariant_mount|now apply invariant_step].
Qed.

End EventLoop.

Lemma reachable_generating : App.reachable Sample.generating.
Proof. unfold Sample.generating, Sample.both_uploaded. repeat constructor. Qed.

(** In a reachable state of the mounted component the loading flag is set
    only while an invocation of the handler is suspended, and an error is
    never shown together with a video. *)
Lemma not_loading_when_idle sys :
  App.reachable sys -> App.mounted sys = true -> App.in_flight sys = [] ->
  App.isLoading (App.app sys) = false.
Proof. intros H. exact (App.inv_idle sys (reachable_invariant sys H)). Qed.

Lemma error_excludes_video sys message :
  App.reachable sys -> App.error (App.app sys) = Some message ->
  App.generatedVideoUrl (App.app sys) = None.
Proof.
  intros H He. apply (App.inv_failed sys (reachable_invariant sys H)).
  rewrite He. discriminate.
Qed.

(** The guard against a second submit is the view's: the callback itself
    does not look at the loading flag, and started directly in a loading
    state with both inputs it would call the compositor again. *)
Lemma handleGenerateVideo_unguarded sys l r :
  App.isLoading (App.app sys) = true ->
  snd (App.proceed sys (App.in_flight sys) (App.handleGenerateVideo (Some l) (Some r)))
  = [App.Combine (dataUrl l) (dataUrl r)].
Proof.
  intros _. unfold App.proceed. rewrite advance_start.
  destruct (App.mounted sys);
    [destruct (App.commit _ _ _ _)|]; reflexivity.
Qed.



(** C6.  In every state the component can reach: while it is mounted and
    loading, exactly one interval runs, of period 3000 ms, the message shown
    is one of the fixed set, and a firing of the interval changes nothing
    but the message, which moves to the next of the set, the first one
    following the last; when it is not loading, or unmounted, no interval
    runs and a firing of any handle finds nothing to do.  So any event that
    ends the loading state, or unmounts the component, leaves no interval
    behind. *)
Theorem ticker_follows_loading (sys : App.System) :
  App.reachable sys ->
  (App.mounted sys = true -> App.isLoading (App.app sys) = true ->
   exists handle i,
     App.intervals (App.window sys) = [(handle, 3000)] /\
     (i < List.length App.loadingMessages)%nat /\
     App.loadingMessage (App.app sys) = nth i App.loadingMessages "" /\
     App.after sys (App.Interval_fires handle)
     = {| App.mounted := true; App.app := App.tick (App.app sys);
          App.intervalRef := App.intervalRef sys; App.window := App.window sys;
          App.in_flight := App.in_flight sys |} /\
     App.loadingMessage (App.tick (App.app sys))
     = nth (S i mod 7) App.loadingMessages "") /\
  (App.mounted sys = false \/ App.isLoading (App.app sys) = false ->
   App.intervals (App.window sys) = [] /\
   forall handle, App.step sys (App.Interval_fires handle) = (sys, [])) /\
  (forall ev,
     App.isLoading (App.app sys) = true ->
     App.isLoading (App.app (App.after sys ev)) = false
     \/ App.mounted (App.after sys ev) = false ->
     App.intervals (App.window (App.after sys ev)) = []).
Proof.
  intros Hreach.
  assert (Hstopped : forall sys',
             App.invariant sys' ->
             App.mounted sys' = false \/ App.isLoading (App.app sys') = false ->
             App.intervals (App.window sys') = []).
  { intros sys' Hinv Hoff. destruct (App.inv_ticker sys' Hinv) as [_ Htick].
    destruct (App.mounted sys'); [|exact Htick].
    destruct Hoff as [H|H]; [discriminate|]. rewrite H in Htick. apply Htick. }
  pose proof (reachable_invariant sys Hreach) as Hinv.
  split; [|split].
  - intros Hm Hload.
    destruct (App.inv_ticker sys Hinv) as [_ Htick]. rewrite Hm, Hload in Htick.
    destruct Htick as (handle & Href & Hrange & Hivs).
    destruct (App.inv_message sys Hinv) as (i & Hi & Hmsg).
    exists handle, i. repeat (split; [assumption|]). split.
    + unfold App.after. cbn [App.step]. unfold App.running. rewrite Hivs. cbn.
      rewrite Z.eqb_refl. cbn. rewrite update_app_loading_kept by reflexivity.
      now rewrite Hm.
    + cbn [App.tick App.setLoadingMessage App.loadingMessage]. rewrite Hmsg.
      now apply next_message_nth.
  - intros Hoff. pose proof (Hstopped sys Hinv Hoff) as Hivs.
    split; [exact Hivs|]. intros handle. cbn [App.step].
    unfold App.running. now rewrite Hivs.
  - intros ev _ Hoff. apply Hstopped; [|tauto].
    now apply invariant_step.
Qed.

Lemma ticker_follows_loading_witness :
  exists handle i,
    App.intervals (App.window Sample.generating) = [(handle, 3000)] /\
    (i < List.length App.loadingMessages)%nat /\
    App.loadingMessage (App.app Sample.generating) = nth i App.loadingMessages "" /\
    App.after Sample.generating (App.Interval_fires handle)
    = {| App.mounted := true; App.app := App.tick (App.app Sample.generating);
         App.intervalRef := App.intervalRef Sample.generating;
         App.window := App.window Sample.generating;
         App.in_flight := App.in_flight Sample.generating |} /\
    App.loadingMessage (App.tick (App.app Sample.generating))
    = nth (S i mod 7) App.loadingMessages "".
Proof.
  apply (ticker_follows_loading Sample.generating reachable_generating);
    reflexivity.
Defined.

(* ===================================================================== *)
(** * The end-to-end scenarios                                            *)
(* ===================================================================== *)

(** Scenario A: two 100 x 100 images, a job that is done at once with a
    locator, a fetch that succeeds. *)
Example scenario_A :
  let sv := EndToEnd.services "KEY" (Sample.provider_immediate (Some "https://v/1?alt=media"))
              0 Sample.browser_compositor in
  let attempt := App.invoke sv (App.app Sample.both_uploaded) in
  fst attempt = Js.Returned tt /\
  App.workflowState (App.state (snd attempt)) = App.Ready "blob:video" /\
  GeminiService.trace
    (snd (EndToEnd.generation "KEY" (Sample.provider_immediate (Some "https://v/1?alt=media"))
            0 {| base64 := Some "/9j/4AAQ"; mimeType := "image/jpeg";
                 dataUrl := "data:image/jpeg;base64,/9j/4AAQ" |}))
  = [ GeminiService.Submitted
        (GeminiService.request
           {| base64 := Some "/9j/4AAQ"; mimeType := "image/jpeg";
              dataUrl := "data:image/jpeg;base64,/9j/4AAQ" |});
      GeminiService.Fetched "https://v/1?alt=media&key=KEY";
      GeminiService.BlobRead;
      GeminiService.ObjectURLCreated ].
Proof. repeat split. Qed.

(** Scenario C: a text file in the right slot. *)
Example scenario_C :
  let upload := ImageUploader.file_chosen (Some Sample.text_file) ImageUploader.initial in
  let s := App.uploads App.RightPerson (snd upload)
             (App.setLeftImage (Some Sample.picture) App.initial) in
  ImageUploader.error (fst upload)
  = Some "Please upload a valid image file (PNG, JPG, etc.)." /\
  App.rightImage s = None /\
  App.generate_disabled (App.render s) = true /\
  App.error (App.state (snd (App.invoke
               {| App.combine := fun _ _ => None; App.generate := fun _ => None |} s)))
  = Some "Please upload both images before generating.".
Proof. repeat split. Qed.

(** A source that does not decode rejects the composition, and the attempt
    fails with the message of the compositor. *)
Example broken_left_image :
  let compose := Compositor.combineImages Sample.encoder true (fun _ => None)
                   [Compositor.Left; Compositor.Right] in
  let sv := EndToEnd.services "KEY" (Sample.provider 0 None) 1 compose in
  compose "data:image/png;base64,AAAA" "data:image/png;base64,AAAA"
  = Some (inl (Js.JsError "Failed to load left image.")) /\
  App.workflowState (App.state (snd (App.invoke sv (App.app Sample.both_uploaded))))
  = App.Failed "Failed to load left image.".
Proof. repeat split. Qed.

(* ===================================================================== *)
(** * Further properties of the generation client                         *)
(* ===================================================================== *)

Section Polling.
Import Js GeminiService.

Lemma rounds_cons o os : rounds (o :: os) = Waited 10000 :: Queried o :: rounds os.
Proof. reflexivity. Qed.

(** Every run of the polling loop, however the provider answers. *)
Lemma pollOperation_any_run R :
  forall fuel operation w,
    exists os,
      trace (snd (run (serve R) (pollOperation fuel operation) w))
      = trace w ++ rounds os /\
      queries (snd (run (serve R) (pollOperation fuel operation) w))
      = (queries w + List.length os)%nat /\
      (List.length os <= fuel)%nat /\
      Forall (fun o => done o = false) os /\
      (forall k o, nth_error os k = Some o ->
                   inspected R w operation k = Some (inr o)) /\
      (forall r, fst (run (serve R) (pollOperation fuel operation) w) = Returned r ->
                 done r = true /\
                 inspected R w operation (List.length os) = Some (inr r)) /\
      (forall e, fst (run (serve R) (pollOperation fuel operation) w) = Threw e ->
                 inspected R w operation (List.length os) = Some (inl e)).
Proof.
  assert (Hstop : forall fuel operation w,
             done operation = true ->
             run (serve R) (pollOperation fuel operation) w = (Returned operation, w)).
  { intros [|fuel] operation w Hd; cbn [pollOperation]; now rewrite Hd. }
  assert (Hnil : forall (k : nat) (o : Operation), nth_error [] k = Some o -> False).
  { intros [|k] o H; discriminate H. }
  assert (Hone : forall operation w (k : nat) (o : Operation),
             nth_error [operation] k = Some o ->
             inspected R w operation k = Some (inr o)).
  { intros operation w [|[|k]] o H; try discriminate H. now injection H as <-. }
  induction fuel as [|fuel IH]; intros operation w.
  - exists []. destruct (done operation) eqn:Hd.
    + rewrite Hstop by exact Hd. cbn. rewrite app_nil_r, Nat.add_0_r.
      split; [reflexivity|]. split; [reflexivity|]. split; [lia|].
      split; [constructor|]. split; [intros k o H; elim (Hnil k o H)|].
      split; [intros r [= <-]; auto|intros e H; discriminate H].
    + cbn [pollOperation]. rewrite Hd. cbn. rewrite app_nil_r, Nat.add_0_r.
      split; [reflexivity|]. split; [reflexivity|]. split; [lia|].
      split; [constructor|]. split; [intros k o H; elim (Hnil k o H)|].
      split; intros ? H; discriminate H.
  - destruct (done operation) eqn:Hd.
    + exists []. rewrite Hstop by exact Hd. cbn. rewrite app_nil_r, Nat.add_0_r.
      split; [reflexivity|]. split; [reflexivity|]. split; [lia|].
      split; [constructor|]. split; [intros k o H; elim (Hnil k o H)|].
      split; [intros r [= <-]; auto|intros e H; discriminate H].
    + cbn [pollOperation]. rewrite Hd. cbn. unfold note. cbn.
      destruct (status_query R (queries w)) as [[e|next]|] eqn:Hq.
      * exists [operation]. cbn. rewrite <- app_assoc. cbn.
        split; [reflexivity|]. split; [lia|]. split; [lia|].
        split; [repeat constructor; exact Hd|]. split; [apply Hone|].
        split; [intros r H; discriminate H|].
        intros e' [= <-]. now rewrite Nat.add_0_r.
      * set (w1 := {| queries := S (queries w);
                      trace := (trace w ++ [Waited 10000]) ++ [Queried operation] |}).
        destruct (IH next w1) as (os & Ht & Hn & Hlen & Hall & Hnth & Hret & Hthrow).
        assert (Hshift : forall k, inspected R w1 next k = inspected R w operation (S k)).
        { intros [|j]; cbn; rewrite ?Nat.add_0_r; [now rewrite Hq|f_equal; lia]. }
        exists (operation :: os). cbn [bind]. rewrite Ht, Hn. cbn [List.length].
        split; [subst w1; cbn; rewrite <- !app_assoc; reflexivity|].
        split; [subst w1; cbn; lia|].
        split; [lia|]. split; [now constructor|].
        split; [|split].
        -- intros [|k] o H; [now injection H as <-|].
           rewrite <- Hshift. now apply Hnth.
        -- intros r Hr. rewrite <- Hshift. now apply Hret.
        -- intros e He. rewrite <- Hshift. now apply Hthrow.
      * exists [operation]. cbn. rewrite <- app_assoc. cbn.
        split; [reflexivity|]. split; [lia|]. split; [lia|].
        split; [repeat constructor; exact Hd|]. split; [apply Hone|].
        split; intros ? H; discriminate H.
Qed.

(** The loop against a job whose status query is rejected after [N]
    inspections that found it not done. *)
Lemma pollOperation_stops R N :
  forall fuel w operation e,
    (forall k, (k < N)%nat ->
               exists o, inspected R w operation k = Some (inr o) /\ done o = false) ->
    inspected R w operation N = Some (inl e) ->
    (N <= fuel)%nat ->
    exists os,
      List.length os = N /\
      run (serve R) (pollOperation fuel operation) w
      = (Threw e, {| queries := queries w + N; trace := trace w ++ rounds os |}).
Proof.
  induction N as [|N IH]; intros fuel w operation e Hnot Hlast Hfuel.
  - discriminate Hlast.
  - destruct fuel as [|fuel]; [lia|].
    destruct (Hnot 0%nat ltac:(lia)) as (o0 & H0 & Hd0).
    cbn in H0. injection H0 as <-.
    cbn [pollOperation]. rewrite Hd0. cbn. unfold note. cbn.
    destruct N as [|N'].
    + cbn in Hlast. rewrite Nat.add_0_r in Hlast. rewrite Hlast.
      exists [operation]. split; [reflexivity|]. cbn.
      rewrite <- app_assoc. do 2 f_equal. lia.
    + destruct (Hnot 1%nat ltac:(lia)) as (o1 & H1 & _).
      cbn in H1. rewrite Nat.add_0_r in H1. rewrite H1. cbn [bind].
      set (w1 := {| queries := S (queries w);
                    trace := (trace w ++ [Waited 10000]) ++ [Queried operation] |}).
      assert (Hshift : forall k, inspected R w1 o1 k = inspected R w operation (S k)).
      { intros [|j]; cbn; rewrite ?Nat.add_0_r; [now rewrite H1|f_equal; lia]. }
      destruct (IH fuel w1 o1 e) as (os & Hlen & Hrun).
      * intros k Hk. rewrite Hshift. apply Hnot. lia.
      * now rewrite Hshift.
      * lia.
      * exists (operation :: os). split; [cbn; now f_equal|].
        rewrite Hrun. subst w1. cbn. rewrite <- !app_assoc. cbn.
        do 2 f_equal. lia.
Qed.

Lemma no_log_rounds os : forallb (fun a => negb (Behaviour.is_log a)) (rounds os) = true.
Proof. induction os as [|o os IH]; cbn; auto. Qed.

Lemma trace_note a w : trace (note a w) = trace w ++ [a].
Proof. reflexivity. Qed.

(** The body of [generateHuggingVideo] never calls [console.error]. *)
Lemma body_never_logs API_KEY R fuel combinedImage w :
  exists t,
    trace (snd (run (serve R) (generateHuggingVideo_body API_KEY fuel combinedImage) w))
    = trace w ++ t /\
    forallb (fun a => negb (Behaviour.is_log a)) t = true.
Proof.
  unfold generateHuggingVideo_body. rewrite run_bind, run_await. cbn [serve].
  destruct (submit R (request combinedImage)) as [[e|operation]|].
  - exists [Submitted (request combinedImage)]. split; reflexivity.
  - rewrite run_bind.
    destruct (pollOperation_any_run R fuel operation
                (note (Submitted (request combinedImage)) w))
      as (os & Ht & _).
    destruct (run (serve R) (pollOperation fuel operation)
                (note (Submitted (request combinedImage)) w)) as [[final|e|] w1].
    + cbn [snd] in Ht.
      destruct (negb (truthy_string (downloadLink final))).
      * exists (Submitted (request combinedImage) :: rounds os). cbn [run snd].
        rewrite Ht, trace_note, <- app_assoc. split; [reflexivity|].
        cbn. apply no_log_rounds.
      * rewrite run_bind, run_await. cbn [serve].
        destruct (fetch R _) as [[e|videoResponse]|].
        -- eexists. cbn [snd]. rewrite trace_note, Ht, trace_note, <- !app_assoc.
           split; [reflexivity|].
           rewrite !forallb_app, no_log_rounds. reflexivity.
        -- destruct (negb (ok videoResponse)).
           ++ eexists. cbn [run snd]. rewrite trace_note, Ht, trace_note, <- !app_assoc.
              split; [reflexivity|].
              rewrite !forallb_app, no_log_rounds. reflexivity.
           ++ rewrite run_bind, run_await. cbn [serve].
              destruct (blob R videoResponse) as [[e|data]|].
              ** eexists. cbn [snd].
                 rewrite !trace_note, Ht, trace_note, <- !app_assoc.
                 split; [reflexivity|].
                 rewrite !forallb_app, no_log_rounds. reflexivity.
              ** eexists. rewrite run_await. cbn [serve snd].
                 rewrite !trace_note, Ht, trace_note, <- !app_assoc.
                 split; [reflexivity|].
                 rewrite !forallb_app, no_log_rounds. reflexivity.
              ** eexists. cbn [snd].
                 rewrite !trace_note, Ht, trace_note, <- !app_assoc.
                 split; [reflexivity|].
                 rewrite !forallb_app, no_log_rounds. reflexivity.
        -- eexists. cbn [snd]. rewrite trace_note, Ht, trace_note, <- !app_assoc.
           split; [reflexivity|].
           rewrite !forallb_app, no_log_rounds. reflexivity.
    + exists (Submitted (request combinedImage) :: rounds os). cbn [snd] in *.
      rewrite Ht, trace_note, <- app_assoc. split; [reflexivity|].
      cbn. apply no_log_rounds.
    + exists (Submitted (request combinedImage) :: rounds os). cbn [snd] in *.
      rewrite Ht, trace_note, <- app_assoc. split; [reflexivity|].
      cbn. apply no_log_rounds.
  - exists [Submitted (request combinedImage)]. split; reflexivity.
Qed.

End Polling.

Section Generation.
Import Js GeminiService.

Lemma truthy_link link : link <> "" -> truthy_string (Some link) = true.
Proof.
  intros H. cbn. destruct (String.eqb_spec link ""); [contradiction|reflexivity].
Qed.

(** The run of [generateHuggingVideo] up to the end of the polling, for a
    job that completes. *)
Lemma generation_polled API_KEY R N fuel w combinedImage operation finalOperation :
  submit R (request combinedImage) = Some (inr operation) ->
  (forall k, (k < N)%nat ->
     exists o, inspected R w operation k = Some (inr o) /\ done o = false) ->
  inspected R w operation N = Some (inr finalOperation) ->
  done finalOperation = true ->
  (N <= fuel)%nat ->
  exists os,
    List.length os = N /\
    run (serve R) (generateHuggingVideo_body API_KEY fuel combinedImage) w
    = run (serve R)
        (if negb (truthy_string (downloadLink finalOperation)) then
           Throw (JsError "Video generation failed: no download link provided.")
         else
           let link := match downloadLink finalOperation with
                       | Some l => l
                       | None => ""
                       end in
           videoResponse <- await (Fetch (link ++ "&key=" ++ API_KEY)%string) ;;
           if negb (ok videoResponse) then
             Throw (JsError ("Failed to download video: " ++ statusText videoResponse)%string)
           else
             videoBlob <- await (ReadBlob videoResponse) ;;
             await (CreateObjectURL videoBlob))
        {| queries := queries w + N;
           trace := trace w ++ Submitted (request combinedImage) :: rounds os |}.
Proof.
  intros Hsub Hnot Hlast Hdone Hfuel.
  destruct (pollOperation_rounds R N fuel (note (Submitted (request combinedImage)) w)
              operation finalOperation) as (os & Hlen & _ & Hrun); auto.
  exists os. split; [exact Hlen|].
  unfold generateHuggingVideo_body.
  rewrite run_bind, run_await. cbn [serve]. rewrite Hsub.
  rewrite run_bind, Hrun. unfold note. cbn [queries trace].
  rewrite <- app_assoc. reflexivity.
Qed.

End Generation.

(** X1.  When the job completes with a non-empty locator, the fetch of
    that locator followed by [&key=] and the API key answers ok and its
    body can be read, [generateHuggingVideo] returns the object URL made of
    the downloaded blob; its trace is the submission, the rounds of
    polling, one fetch, one blob read and one object URL, with nothing
    logged; and the handler that awaited it ends Ready with that URL and
    no error. *)
Theorem generation_succeeds
    (API_KEY : string) (R : GeminiService.Remote) (N fuel : nat)
    (compose : string -> string -> option (Js.Settled UploadedImage))
    (s : App.State) (l r combinedImage : UploadedImage)
    (operation finalOperation : GeminiService.Operation)
    (link : string) (videoResponse : GeminiService.FetchResponse)
    (videoBlob : GeminiService.Blob) :
  App.leftImage s = Some l ->
  App.rightImage s = Some r ->
  compose (dataUrl l) (dataUrl r) = Some (inr combinedImage) ->
  GeminiService.submit R (GeminiService.request combinedImage) = Some (inr operation) ->
  (forall k, (k < N)%nat ->
     exists o, GeminiService.inspected R GeminiService.fresh operation k = Some (inr o)
               /\ GeminiService.done o = false) ->
  GeminiService.inspected R GeminiService.fresh operation N = Some (inr finalOperation) ->
  GeminiService.done finalOperation = true ->
  (N <= fuel)%nat ->
  GeminiService.downloadLink finalOperation = Some link ->
  link <> "" ->
  GeminiService.fetch R (link ++ "&key=" ++ API_KEY)%string = Some (inr videoResponse) ->
  GeminiService.ok videoResponse = true ->
  GeminiService.blob R videoResponse = Some (inr videoBlob) ->
  let attempt := App.invoke (EndToEnd.services API_KEY R fuel compose) s in
  (exists os,
     List.length os = N /\
     EndToEnd.generation API_KEY R fuel combinedImage
     = (Js.Returned (GeminiService.object_url R videoBlob),
        {| GeminiService.queries := N;
           GeminiService.trace :=
             GeminiService.Submitted (GeminiService.request combinedImage)
             :: GeminiService.rounds os
             ++ [GeminiService.Fetched (link ++ "&key=" ++ API_KEY)%string;
                 GeminiService.BlobRead; GeminiService.ObjectURLCreated] |})) /\
  App.workflowState (App.state (snd attempt))
  = App.Ready (GeminiService.object_url R videoBlob) /\
  App.error (App.state (snd attempt)) = None.
Proof.
  intros Hl Hr Hc Hsub Hnot Hlast Hdone Hfuel Hlink Hne Hfetch Hok Hblob attempt.
  destruct (generation_polled API_KEY R N fuel GeminiService.fresh combinedImage
              operation finalOperation) as (os & Hlen & Hbody); auto.
  assert (Hgen : EndToEnd.generation API_KEY R fuel combinedImage
                 = (Js.Returned (GeminiService.object_url R videoBlob),
                    {| GeminiService.queries := N;
                       GeminiService.trace :=
                         GeminiService.Submitted (GeminiService.request combinedImage)
                         :: GeminiService.rounds os
                         ++ [GeminiService.Fetched (link ++ "&key=" ++ API_KEY)%string;
                             GeminiService.BlobRead;
                             GeminiService.ObjectURLCreated] |})).
  { unfold EndToEnd.generation, GeminiService.generateHuggingVideo.
    rewrite run_try_catch, Hbody, Hlink, (truthy_link link Hne).
    cbn [negb]. rewrite run_bind, run_await. cbn [GeminiService.serve].
    rewrite Hfetch, Hok. cbn [negb].
    rewrite run_bind, run_await. cbn [GeminiService.serve]. rewrite Hblob.
    rewrite run_await. cbn. unfold GeminiService.note. cbn.
    rewrite <- !app_assoc. reflexivity. }
  split; [exists os; split; [exact Hlen|exact Hgen]|].
  subst attempt. rewrite (invoke_cases _ s l r Hl Hr).
  cbn [EndToEnd.services App.combine App.generate]. rewrite Hc, Hgen.
  cbn. split; reflexivity.
Qed.

Lemma generation_succeeds_witness :
  let attempt :=
    App.invoke (EndToEnd.services "KEY" (Sample.provider 1 (Some "https://v/1?alt=media")) 5
                  (fun _ _ => Some (inr Sample.picture)))
      (App.app Sample.both_uploaded) in
  App.workflowState (App.state (snd attempt)) = App.Ready "blob:video".
Proof.
  intros attempt.
  apply (generation_succeeds "KEY" (Sample.provider 1 (Some "https://v/1?alt=media")) 2 5
           (fun _ _ => Some (inr Sample.picture)) (App.app Sample.both_uploaded)
           Sample.picture Sample.picture Sample.picture
           Sample.job_pending (Sample.job_done (Some "https://v/1?alt=media"))
           "https://v/1?alt=media"
           {| GeminiService.ok := true; GeminiService.statusText := "OK" |} []);
    try reflexivity; try lia; try discriminate.
  intros k Hk. destruct k as [|[|k]]; [eexists; split; reflexivity ..|lia].
Defined.

(** X2.  When the job completes with a locator but the download answers
    with a response that is not ok, [generateHuggingVideo] throws the
    message that the download failed, followed by the status text, wrapped
    as a service error; it logs the failure, reads no blob and makes no
    object URL; and the handler ends Failed with that message. *)
Theorem download_refused
    (API_KEY : string) (R : GeminiService.Remote) (N fuel : nat)
    (compose : string -> string -> option (Js.Settled UploadedImage))
    (s : App.State) (l r combinedImage : UploadedImage)
    (operation finalOperation : GeminiService.Operation)
    (link : string) (videoResponse : GeminiService.FetchResponse) :
  App.leftImage s = Some l ->
  App.rightImage s = Some r ->
  compose (dataUrl l) (dataUrl r) = Some (inr combinedImage) ->
  GeminiService.submit R (GeminiService.request combinedImage) = Some (inr operation) ->
  (forall k, (k < N)%nat ->
     exists o, GeminiService.inspected R GeminiService.fresh operation k = Some (inr o)
               /\ GeminiService.done o = false) ->
  GeminiService.inspected R GeminiService.fresh operation N = Some (inr finalOperation) ->
  GeminiService.done finalOperation = true ->
  (N <= fuel)%nat ->
  GeminiService.downloadLink finalOperation = Some link ->
  link <> "" ->
  GeminiService.fetch R (link ++ "&key=" ++ API_KEY)%string = Some (inr videoResponse) ->
  GeminiService.ok videoResponse = false ->
  let message :=
    ("An error occurred with the AI service: Failed to download video: "
     ++ GeminiService.statusText videoResponse)%string in
  let attempt := App.invoke (EndToEnd.services API_KEY R fuel compose) s in
  (exists os,
     List.length os = N /\
     EndToEnd.generation API_KEY R fuel combinedImage
     = (Js.Threw (Js.JsError message),
        {| GeminiService.queries := N;
           GeminiService.trace :=
             GeminiService.Submitted (GeminiService.request combinedImage)
             :: GeminiService.rounds os
             ++ [GeminiService.Fetched (link ++ "&key=" ++ API_KEY)%string;
                 GeminiService.Logged "Error generating video:"
                   (Js.JsError ("Failed to download video: "
                                ++ GeminiService.statusText videoResponse)%string)] |})) /\
  App.workflowState (App.state (snd attempt)) = App.Failed message /\
  App.generatedVideoUrl (App.state (snd attempt)) = None.
Proof.
  intros Hl Hr Hc Hsub Hnot Hlast Hdone Hfuel Hlink Hne Hfetch Hok message attempt.
  destruct (generation_polled API_KEY R N fuel GeminiService.fresh combinedImage
              operation finalOperation) as (os & Hlen & Hbody); auto.
  assert (Hgen : EndToEnd.generation API_KEY R fuel combinedImage
                 = (Js.Threw (Js.JsError message),
                    {| GeminiService.queries := N;
                       GeminiService.trace :=
                         GeminiService.Submitted (GeminiService.request combinedImage)
                         :: GeminiService.rounds os
                         ++ [GeminiService.Fetched (link ++ "&key=" ++ API_KEY)%string;
                             GeminiService.Logged "Error generating video:"
                               (Js.JsError ("Failed to download video: "
                                  ++ GeminiService.statusText videoResponse)%string)] |})).
  { unfold EndToEnd.generation, GeminiService.generateHuggingVideo.
    rewrite run_try_catch, Hbody, Hlink, (truthy_link link Hne).
    cbn [negb]. rewrite run_bind, run_await. cbn [GeminiService.serve].
    rewrite Hfetch, Hok. cbn. unfold GeminiService.note. cbn.
    rewrite <- !app_assoc. reflexivity. }
  split; [exists os; split; [exact Hlen|exact Hgen]|].
  subst attempt. rewrite (invoke_cases _ s l r Hl Hr).
  cbn [EndToEnd.services App.combine App.generate]. rewrite Hc, Hgen.
  cbn. split; reflexivity.
Qed.

Lemma download_refused_witness :
  let attempt :=
    App.invoke (EndToEnd.services "KEY" (Behaviour.forbidden_provider 0 "https://v/1") 5
                  (fun _ _ => Some (inr Sample.picture)))
      (App.app Sample.both_uploaded) in
  App.workflowState (App.state (snd attempt))
  = App.Failed "An error occurred with the AI service: Failed to download video: Forbidden".
Proof.
  intros attempt.
  apply (download_refused "KEY" (Behaviour.forbidden_provider 0 "https://v/1") 1 5
           (fun _ _ => Some (inr Sample.picture)) (App.app Sample.both_uploaded)
           Sample.picture Sample.picture Sample.picture
           Sample.job_pending (Sample.job_done (Some "https://v/1"))
           "https://v/1"
           {| GeminiService.ok := false; GeminiService.statusText := "Forbidden" |});
    try reflexivity; try lia; try discriminate.
  intros k Hk. destruct k as [|k]; [eexists; split; reflexivity|lia].
Defined.

(** X3.  Whatever the provider and the network do, an error thrown by
    [generateHuggingVideo] is an [Error] whose message is the service
    prefix followed by the message of the cause, or the unknown-error
    message; the cause has been logged once, as the last action; and a
    run that returns has logged nothing. *)
Theorem generation_error_is_wrapped
    (API_KEY : string) (R : GeminiService.Remote) (fuel : nat)
    (combinedImage : UploadedImage) (w : GeminiService.World) :
  let result :=
    Js.run (GeminiService.serve R)
      (GeminiService.generateHuggingVideo API_KEY fuel combinedImage) w in
  (forall e, fst result = Js.Threw e ->
     exists cause t,
       e = Behaviour.wrapped cause /\
       (exists m, e = Js.JsError m /\ Behaviour.service_message m) /\
       GeminiService.trace (snd result)
       = GeminiService.trace w ++ t
         ++ [GeminiService.Logged "Error generating video:" cause] /\
       forallb (fun a => negb (Behaviour.is_log a)) t = true) /\
  (forall url, fst result = Js.Returned url ->
     exists t,
       GeminiService.trace (snd result) = GeminiService.trace w ++ t /\
       forallb (fun a => negb (Behaviour.is_log a)) t = true).
Proof.
  intros result. subst result.
  unfold GeminiService.generateHuggingVideo. rewrite run_try_catch.
  destruct (body_never_logs API_KEY R fuel combinedImage w) as (t & Ht & Hlog).
  destruct (Js.run (GeminiService.serve R)
              (GeminiService.generateHuggingVideo_body API_KEY fuel combinedImage) w)
    as [[url|cause|] w1]; cbn [snd] in Ht.
  - split; [intros e H; discriminate H|].
    intros url' _. exists t. auto.
  - split; [|destruct cause; intros url H; discriminate H].
    intros e He. exists cause, t.
    assert (He' : e = Behaviour.wrapped cause).
    { destruct cause; cbn in He; now injection He as <-. }
    split; [exact He'|]. split.
    + subst e. destruct cause as [m|]; cbn; eexists; split; try reflexivity.
      * left. now exists m.
      * now right.
    + split; [|exact Hlog].
      destruct cause; cbn; unfold GeminiService.note; cbn;
        now rewrite Ht, <- app_assoc.
  - split; intros ? H; discriminate H.
Qed.

(** X4.  There is no retry: when a status query is rejected, after [N]
    inspections that found the job not done, [generateHuggingVideo] makes
    no further query and no fetch, logs the rejection and throws it
    wrapped as a service error; [N] waits of 10000 ms and [N] status
    queries have been made. *)
Theorem rejected_status_query_ends_attempt
    (API_KEY : string) (R : GeminiService.Remote) (N fuel : nat)
    (w : GeminiService.World) (combinedImage : UploadedImage)
    (operation : GeminiService.Operation) (e : Js.Thrown) :
  GeminiService.submit R (GeminiService.request combinedImage) = Some (inr operation) ->
  (forall k, (k < N)%nat ->
     exists o, GeminiService.inspected R w operation k = Some (inr o)
               /\ GeminiService.done o = false) ->
  GeminiService.inspected R w operation N = Some (inl e) ->
  (N <= fuel)%nat ->
  exists os,
    List.length os = N /\
    GeminiService.waits (GeminiService.rounds os) = repeat 10000 N /\
    Js.run (GeminiService.serve R)
      (GeminiService.generateHuggingVideo API_KEY fuel combinedImage) w
    = (Js.Threw (Behaviour.wrapped e),
       {| GeminiService.queries := GeminiService.queries w + N;
          GeminiService.trace :=
            GeminiService.trace w
            ++ GeminiService.Submitted (GeminiService.request combinedImage)
               :: GeminiService.rounds os
            ++ [GeminiService.Logged "Error generating video:" e] |}).
Proof.
  intros Hsub Hnot Hlast Hfuel.
  destruct (pollOperation_stops R N fuel
              (GeminiService.note
                 (GeminiService.Submitted (GeminiService.request combinedImage)) w)
              operation e) as (os & Hlen & Hrun); auto.
  exists os. split; [exact Hlen|]. split; [now rewrite waits_rounds, Hlen|].
  unfold GeminiService.generateHuggingVideo, GeminiService.generateHuggingVideo_body.
  rewrite run_try_catch, run_bind, run_await. cbn [GeminiService.serve].
  rewrite Hsub, run_bind, Hrun.
  destruct e; cbn; unfold GeminiService.note; cbn; rewrite <- !app_assoc; reflexivity.
Qed.

Lemma rejected_status_query_ends_attempt_witness :
  exists os,
    List.length os = 2%nat /\
    GeminiService.waits (GeminiService.rounds os) = [10000; 10000] /\
    Js.run (GeminiService.serve (Behaviour.failing_provider 1 (Js.JsError "quota exceeded")))
      (GeminiService.generateHuggingVideo "KEY" 5 Sample.picture) GeminiService.fresh
    = (Js.Threw (Js.JsError "An error occurred with the AI service: quota exceeded"),
       {| GeminiService.queries := 2;
          GeminiService.trace :=
            GeminiService.Submitted (GeminiService.request Sample.picture)
            :: GeminiService.rounds os
            ++ [GeminiService.Logged "Error generating video:"
                  (Js.JsError "quota exceeded")] |}).
Proof.
  apply (rejected_status_query_ends_attempt "KEY"
           (Behaviour.failing_provider 1 (Js.JsError "quota exceeded")) 2 5
           GeminiService.fresh Sample.picture Sample.job_pending
           (Js.JsError "quota exceeded")).
  - reflexivity.
  - intros k Hk. destruct k as [|[|k]]; [eexists; split; reflexivity ..|lia].
  - reflexivity.
  - lia.
Defined.

(** X5.  Whatever the provider answers and however long the loop runs,
    the trace of [pollOperation] is a sequence of rounds, each a wait of
    exactly 10000 ms followed by one status query: a query is never made
    without the wait before it, and the interval never changes.  Each
    query is made about the handle the previous one returned (the first
    about the handle given), each of them not done; and a handle that is
    returned is done. *)
Theorem pollOperation_always_waits_first
    (R : GeminiService.Remote) (fuel : nat)
    (operation : GeminiService.Operation) (w : GeminiService.World) :
  let result :=
    Js.run (GeminiService.serve R) (GeminiService.pollOperation fuel operation) w in
  exists os,
    GeminiService.trace (snd result) = GeminiService.trace w ++ GeminiService.rounds os /\
    GeminiService.waits (GeminiService.rounds os) = repeat 10000 (List.length os) /\
    GeminiService.status_queries (GeminiService.rounds os) = List.length os /\
    (forall k o, nth_error os k = Some o ->
       GeminiService.done o = false /\
       GeminiService.inspected R w operation k = Some (inr o)) /\
    (forall r, fst result = Js.Returned r ->
       GeminiService.done r = true /\
       GeminiService.inspected R w operation (List.length os) = Some (inr r)).
Proof.
  intros result. subst result.
  destruct (pollOperation_any_run R fuel operation w)
    as (os & Ht & _ & _ & Hall & Hnth & Hret & _).
  exists os. split; [exact Ht|].
  split; [apply waits_rounds|]. split; [apply status_queries_rounds|].
  split; [|exact Hret].
  intros k o Hk. split; [|now apply Hnth].
  rewrite Forall_forall in Hall. apply Hall. eapply nth_error_In, Hk.
Qed.

(* ===================================================================== *)
(** * Further properties of the compositor                                *)
(* ===================================================================== *)

Section Promise.
Import Js Compositor.
Variable toDataURL : Canvas -> string -> number -> string.
Variable context2d : bool.
Variables leftImage rightImage : Image.

Local Abbreviation fold :=
  (Behaviour.events_from toDataURL context2d leftImage rightImage).
Local Abbreviation outcome_ok :=
  (Behaviour.outcome_ok toDataURL context2d leftImage rightImage).
Local Abbreviation loaded := Behaviour.loaded.
Local Abbreviation other := Behaviour.other.

Lemma settle_with_settled r first st :
  promise st = Some first -> promise (settle_with r st) = Some first.
Proof. intros H. unfold settle_with. cbn. now rewrite H. Qed.

Lemma onBothLoaded_settled first st :
  promise st = Some first ->
  promise (onBothLoaded toDataURL context2d leftImage rightImage st) = Some first.
Proof.
  intros H. unfold onBothLoaded.
  destruct (leftLoaded st && rightLoaded st); [|exact H].
  destruct (negb context2d); now apply settle_with_settled.
Qed.

Lemma dispatch_settled first ev st :
  promise st = Some first ->
  promise (dispatch toDataURL context2d leftImage rightImage ev st) = Some first.
Proof.
  intros H. destruct ev as [[|]|[|]]; cbn [dispatch];
    try (now apply settle_with_settled);
    now apply onBothLoaded_settled.
Qed.

Lemma fold_settled first events : forall st,
  promise st = Some first -> promise (fold events st) = Some first.
Proof.
  induction events as [|ev events IH]; intros st H; [exact H|].
  apply IH. now apply dispatch_settled.
Qed.

(** Loads of one image alone leave the promise pending. *)
Lemma fold_one_side side events : forall st,
  Forall (fun ev => ev = onload side) events ->
  promise st = None -> loaded (other side) st = false ->
  promise (fold events st) = None /\ loaded (other side) (fold events st) = false.
Proof.
  induction events as [|ev events IH]; intros st Hall Hp Ho; [auto|].
  inversion Hall as [|? ? -> Hrest]; subst.
  apply IH; [exact Hrest| |];
    destruct side; cbn in *; unfold onBothLoaded; cbn; rewrite Ho;
      rewrite ?andb_false_r; cbn; auto.
Qed.

(** What the promise can be after any events, and what has then
    happened. *)
Lemma outcome_ok_step events ev st :
  outcome_ok events st ->
  outcome_ok (events ++ [ev])
    (dispatch toDataURL context2d leftImage rightImage ev st).
Proof.
  assert (Hin : forall x, In x events -> In x (events ++ [ev]))
    by (intros; apply in_or_app; now left).
  assert (Hlast : In ev (events ++ [ev])) by (apply in_or_app; right; now left).
  destruct st as [ll rl p]. unfold Behaviour.outcome_ok.
  cbn [leftLoaded rightLoaded promise].
  intros (HL & HR & Hp).
  destruct p as [[e|image]|].
  - (* rejected *)
    assert (Hshape :
              (exists side, e = JsError (Behaviour.load_error_message side)
                            /\ In (onerror side) (events ++ [ev]))
              \/ (e = JsError "Could not get canvas context" /\ context2d = false
                  /\ In (onload Left) (events ++ [ev])
                  /\ In (onload Right) (events ++ [ev]))).
    { destruct Hp as [(side & He & Hside)|(He & Hc & H1 & H2)];
        [left; exists side; auto|right; auto]. }
    destruct ev as [[|]|[|]]; cbn [dispatch]; unfold onBothLoaded, reject, settle_with;
      cbn [leftLoaded rightLoaded promise];
      repeat match goal with |- context [if ?c then _ else _] => destruct c end;
      cbn [leftLoaded rightLoaded promise];
      (split; [intros; auto|split; [intros; auto|exact Hshape]]).
  - (* resolved *)
    destruct Hp as (Hc & H1 & H2 & Himg).
    destruct ev as [[|]|[|]]; cbn [dispatch];
      unfold onBothLoaded, reject, resolve, settle_with;
      cbn [leftLoaded rightLoaded promise];
      repeat match goal with |- context [if ?c then _ else _] => destruct c end;
      cbn [leftLoaded rightLoaded promise];
      (split; [intros; auto|split; [intros; auto|auto 6]]).
  - (* pending *)
    destruct ev as [[|]|[|]]; cbn [dispatch];
      unfold onBothLoaded, reject, resolve, settle_with;
      cbn [leftLoaded rightLoaded promise andb].
    + destruct rl; cbn [andb].
      * destruct context2d; cbn [negb promise leftLoaded rightLoaded];
          (split; [intros; auto|split; [intros; auto|]]).
        -- auto 6.
        -- right. auto 6.
      * cbn. split; [intros; auto|]. split; [intros H; discriminate H|exact I].
    + destruct ll; cbn [andb].
      * destruct context2d; cbn [negb promise leftLoaded rightLoaded];
          (split; [intros; auto|split; [intros; auto|]]).
        -- auto 6.
        -- right. auto 6.
      * cbn. split; [intros H; discriminate H|]. split; [intros; auto|exact I].
    + cbn. split; [intros; auto|]. split; [intros; auto|].
      left. exists Left. auto.
    + cbn. split; [intros; auto|]. split; [intros; auto|].
      left. exists Right. auto.
Qed.

Lemma fold_outcome events : outcome_ok events (fold events executor_start).
Proof.
  induction events as [|ev events IH] using rev_ind.
  - cbn. repeat split; discriminate.
  - unfold Behaviour.events_from in *. rewrite fold_left_app. cbn [fold_left].
    now apply outcome_ok_step.
Qed.

End Promise.

Section Pending.
Import Js Compositor.
Variable toDataURL : Canvas -> string -> number -> string.
Variable context2d : bool.
Variables leftImage rightImage : Image.

Local Abbreviation fold :=
  (Behaviour.events_from toDataURL context2d leftImage rightImage).

(** While the promise is pending, the flags record the loads so far, no
    load has failed and at most one image has loaded. *)
Lemma pending_step events ev st :
  (promise st = None ->
   (leftLoaded st = true <-> In (onload Left) events) /\
   (rightLoaded st = true <-> In (onload Right) events) /\
   (forall side, ~ In (onerror side) events) /\
   ~ (In (onload Left) events /\ In (onload Right) events)) ->
  let st' := dispatch toDataURL context2d leftImage rightImage ev st in
  promise st' = None ->
  (leftLoaded st' = true <-> In (onload Left) (events ++ [ev])) /\
  (rightLoaded st' = true <-> In (onload Right) (events ++ [ev])) /\
  (forall side, ~ In (onerror side) (events ++ [ev])) /\
  ~ (In (onload Left) (events ++ [ev]) /\ In (onload Right) (events ++ [ev])).
Proof.
  intros H st' Hst'.
  destruct (promise st) as [first|] eqn:Hp.
  { subst st'.
    rewrite (dispatch_settled toDataURL context2d leftImage rightImage first ev st Hp)
      in Hst'.
    discriminate Hst'. }
  destruct (H eq_refl) as (HL & HR & Herr & Hboth). clear H.
  assert (Hsplit : forall x, In x (events ++ [ev]) <-> In x events \/ x = ev).
  { intros x. rewrite in_app_iff. cbn. intuition auto. }
  destruct st as [ll rl p]. cbn [leftLoaded rightLoaded promise] in *. subst p.
  subst st'.
  destruct ev as [[|]|[|]]; cbn [dispatch] in *;
    unfold onBothLoaded, reject, resolve, settle_with in *;
    cbn [leftLoaded rightLoaded promise andb] in *; try discriminate Hst'.
  - destruct rl; cbn [andb] in *.
    + destruct context2d; discriminate Hst'.
    + cbn [leftLoaded rightLoaded promise].
      rewrite !Hsplit.
      split; [split; auto|].
      split; [split; [intros HF; discriminate HF|]|].
      * intros [Hin|Heq]; [now apply HR|discriminate Heq].
      * split.
        -- intros side. rewrite Hsplit. intros [Hin|Heq]; [now apply (Herr side)|
             discriminate Heq].
        -- intros [_ [Hin|Heq]]; [|discriminate Heq].
           apply HR in Hin. discriminate Hin.
  - destruct ll; cbn [andb] in *.
    + destruct context2d; discriminate Hst'.
    + cbn [leftLoaded rightLoaded promise].
      rewrite !Hsplit.
      split; [split; [intros HF; discriminate HF|]|].
      * intros [Hin|Heq]; [now apply HL|discriminate Heq].
      * split; [split; auto|].
        split.
        -- intros side. rewrite Hsplit. intros [Hin|Heq]; [now apply (Herr side)|
             discriminate Heq].
        -- intros [[Hin|Heq] _]; [|discriminate Heq].
           apply HL in Hin. discriminate Hin.
Qed.

Lemma fold_pending events :
  promise (fold events executor_start) = None ->
  (leftLoaded (fold events executor_start) = true <-> In (onload Left) events) /\
  (rightLoaded (fold events executor_start) = true <-> In (onload Right) events) /\
  (forall side, ~ In (onerror side) events) /\
  ~ (In (onload Left) events /\ In (onload Right) events).
Proof.
  induction events as [|ev events IH] using rev_ind.
  - intros _. cbn. split; [split; [discriminate|tauto]|].
    split; [split; [discriminate|tauto]|]. split; [intros side H; exact H|tauto].
  - unfold Behaviour.events_from in *. rewrite fold_left_app. cbn [fold_left].
    apply pending_step. exact IH.
Qed.

End Pending.

Section Unbounded.
Import Js Compositor.

(** Division by the zero of a zero height gives an infinity or NaN, and
    so do the product and the sums built on it. *)
Lemma unbounded_quotient x : Behaviour.unbounded (PrimFloat.div x (of_N 0)) = true.
Proof.
  unfold Behaviour.unbounded. rewrite FloatAxioms.div_spec.
  replace (FloatOps.Prim2SF (of_N 0)) with (SpecFloat.S754_zero false)
    by (vm_compute; reflexivity).
  destruct (FloatOps.Prim2SF x); reflexivity.
Qed.

Lemma unbounded_scaled x :
  Behaviour.unbounded x = true -> Behaviour.unbounded (PrimFloat.mul targetHeight x) = true.
Proof.
  unfold Behaviour.unbounded. rewrite FloatAxioms.mul_spec.
  replace (FloatOps.Prim2SF targetHeight)
    with (SpecFloat.S754_finite false 6333186975989760 (-43))
    by (vm_compute; reflexivity).
  destruct (FloatOps.Prim2SF x); try discriminate; reflexivity.
Qed.

Lemma unbounded_sum x y :
  Behaviour.unbounded x = true \/ Behaviour.unbounded y = true ->
  Behaviour.unbounded (PrimFloat.add x y) = true.
Proof.
  unfold Behaviour.unbounded. rewrite FloatAxioms.add_spec.
  destruct (FloatOps.Prim2SF x) as [[|]|[|]| |sx mx ex];
    destruct (FloatOps.Prim2SF y) as [[|]|[|]| |sy my ey];
    cbn; intros [H|H]; try discriminate H; reflexivity.
Qed.

Lemma unbounded_to_unsigned_long x :
  Behaviour.unbounded x = true -> to_unsigned_long x = 0.
Proof.
  unfold Behaviour.unbounded, to_unsigned_long.
  destruct (FloatOps.Prim2SF x); try discriminate; reflexivity.
Qed.

End Unbounded.

(** X6.  The promise of [combineImages] settles at most once: once it is
    resolved or rejected, no later load or error event of either image
    changes what it is settled with. *)
Theorem combineImages_settles_once
    (toDataURL : Compositor.Canvas -> string -> Compositor.number -> string)
    (context2d : bool) (leftImage rightImage : Compositor.Image)
    (events later : list Compositor.LoadEvent) (r : Js.Settled UploadedImage) :
  Compositor.combineImages_after toDataURL context2d leftImage rightImage events
  = Some r ->
  Compositor.combineImages_after toDataURL context2d leftImage rightImage
    (events ++ later) = Some r.
Proof.
  unfold Compositor.combineImages_after. intros H.
  rewrite fold_left_app.
  exact (fold_settled toDataURL context2d leftImage rightImage r later _ H).
Qed.

Lemma combineImages_settles_once_witness :
  Compositor.combineImages_after Sample.encoder true Sample.square Sample.portrait
    ([Compositor.onerror Compositor.Right]
     ++ [Compositor.onload Compositor.Left; Compositor.onload Compositor.Right])
  = Some (inl (Js.JsError "Failed to load right image.")).
Proof.
  apply (combineImages_settles_once Sample.encoder true Sample.square Sample.portrait
           [Compositor.onerror Compositor.Right]
           [Compositor.onload Compositor.Left; Compositor.onload Compositor.Right]).
  reflexivity.
Defined.

(** X7.  The promise of [combineImages] is pending exactly as long as
    neither image has failed to load and at most one of them has loaded,
    whether or not a 2D context can be had. *)
Theorem combineImages_pending_iff
    (toDataURL : Compositor.Canvas -> string -> Compositor.number -> string)
    (context2d : bool) (leftImage rightImage : Compositor.Image)
    (events : list Compositor.LoadEvent) :
  Compositor.combineImages_after toDataURL context2d leftImage rightImage events = None
  <->
  (forall side, ~ In (Compositor.onerror side) events) /\
  ~ (In (Compositor.onload Compositor.Left) events
     /\ In (Compositor.onload Compositor.Right) events).
Proof.
  unfold Compositor.combineImages_after.
  change (fold_left _ events Compositor.executor_start)
    with (Behaviour.events_from toDataURL context2d leftImage rightImage events
            Compositor.executor_start).
  split.
  - intros H.
    destruct (fold_pending toDataURL context2d leftImage rightImage events H)
      as (_ & _ & Herr & Hboth).
    split; assumption.
  - intros [Herr Hboth].
    pose proof (fold_outcome toDataURL context2d leftImage rightImage events)
      as (_ & _ & Hp).
    destruct (Compositor.promise _) as [[e|image]|]; [| |reflexivity].
    + destruct Hp as [(side & _ & Hin)|(_ & _ & H1 & H2)].
      * destruct (Herr side Hin).
      * destruct Hboth. split; assumption.
    + destruct Hp as (_ & H1 & H2 & _). destruct Hboth. split; assumption.
Qed.

(** X8.  Whatever the order of the load and error events, the promise of
    [combineImages] is rejected only with an [Error] whose message is one
    of the three of the code: the load failure of a side, after that side's
    [onerror], or the missing canvas context, after both loads when no 2D
    context is to be had.  It is resolved only after both loads and with a
    2D context, and then with the JPEG data URL of the composite canvas at
    quality 0.9, the mime type [image/jpeg] and the part of the data URL
    after its first comma. *)
Theorem combineImages_outcomes
    (toDataURL : Compositor.Canvas -> string -> Compositor.number -> string)
    (context2d : bool) (leftImage rightImage : Compositor.Image)
    (events : list Compositor.LoadEvent) :
  match Compositor.combineImages_after toDataURL context2d leftImage rightImage events
  with
  | None => True
  | Some (inl e) =>
      exists m, e = Js.JsError m /\ Behaviour.compositor_message m /\
        ((exists side, m = Behaviour.load_error_message side
                       /\ In (Compositor.onerror side) events)
         \/ (m = "Could not get canvas context" /\ context2d = false
             /\ In (Compositor.onload Compositor.Left) events
             /\ In (Compositor.onload Compositor.Right) events))
  | Some (inr image) =>
      context2d = true /\
      In (Compositor.onload Compositor.Left) events /\
      In (Compositor.onload Compositor.Right) events /\
      dataUrl image
      = toDataURL (Compositor.composite leftImage rightImage) "image/jpeg"
          Compositor.encoding_quality /\
      mimeType image = "image/jpeg" /\
      base64 image = nth_error (Js.split "," (dataUrl image)) 1
  end.
Proof.
  unfold Compositor.combineImages_after.
  change (fold_left _ events Compositor.executor_start)
    with (Behaviour.events_from toDataURL context2d leftImage rightImage events
            Compositor.executor_start).
  pose proof (fold_outcome toDataURL context2d leftImage rightImage events)
    as (_ & _ & Hp).
  destruct (Compositor.promise _) as [[e|image]|]; [| |exact I].
  - destruct Hp as [(side & -> & Hin)|(-> & Hc & H1 & H2)].
    + exists (Behaviour.load_error_message side).
      split; [reflexivity|]. split.
      * unfold Behaviour.compositor_message. destruct side; cbn; auto.
      * left. exists side. auto.
    + exists "Could not get canvas context".
      split; [reflexivity|]. split.
      * unfold Behaviour.compositor_message. auto.
      * right. auto.
  - destruct Hp as (Hc & H1 & H2 & ->). cbn. auto 7.
Qed.

(** X9.  While the promise of [combineImages] is pending, the [onerror]
    of either image rejects it with that image's load failure message,
    whatever follows; in particular a load failure after the other image
    has loaded. *)
Theorem load_error_rejects
    (toDataURL : Compositor.Canvas -> string -> Compositor.number -> string)
    (context2d : bool) (leftImage rightImage : Compositor.Image)
    (events later : list Compositor.LoadEvent) (side : Compositor.Side) :
  Compositor.combineImages_after toDataURL context2d leftImage rightImage events = None ->
  Compositor.combineImages_after toDataURL context2d leftImage rightImage
    (events ++ Compositor.onerror side :: later)
  = Some (inl (Js.JsError (Behaviour.load_error_message side))).
Proof.
  unfold Compositor.combineImages_after. intros H.
  rewrite fold_left_app. cbn [fold_left].
  apply (fold_settled toDataURL context2d leftImage rightImage).
  destruct side; cbn [Compositor.dispatch]; unfold Compositor.reject,
    Compositor.settle_with; cbn [Compositor.promise]; rewrite H; reflexivity.
Qed.

Lemma load_error_rejects_witness :
  Compositor.combineImages_after Sample.encoder true Sample.square Sample.portrait
    ([Compositor.onload Compositor.Right]
     ++ Compositor.onerror Compositor.Left :: [Compositor.onload Compositor.Left])
  = Some (inl (Js.JsError "Failed to load left image.")).
Proof.
  apply (load_error_rejects Sample.encoder true Sample.square Sample.portrait
           [Compositor.onload Compositor.Right] [Compositor.onload Compositor.Left]
           Compositor.Left).
  reflexivity.
Defined.

(** X10.  While the promise of [combineImages] is pending and one image
    has loaded, the load of the other one settles it, whatever follows:
    with the encoded composite when a 2D context is to be had, and with
    the error [Could not get canvas context] otherwise. *)
Theorem second_load_settles
    (toDataURL : Compositor.Canvas -> string -> Compositor.number -> string)
    (context2d : bool) (leftImage rightImage : Compositor.Image)
    (events later : list Compositor.LoadEvent) (side : Compositor.Side) :
  Compositor.combineImages_after toDataURL context2d leftImage rightImage events = None ->
  In (Compositor.onload (Behaviour.other side)) events ->
  Compositor.combineImages_after toDataURL context2d leftImage rightImage
    (events ++ Compositor.onload side :: later)
  = Some (if context2d
          then inr (Behaviour.combined toDataURL leftImage rightImage)
          else inl (Js.JsError "Could not get canvas context")).
Proof.
  unfold Compositor.combineImages_after. intros H Hin.
  change (fold_left _ events Compositor.executor_start)
    with (Behaviour.events_from toDataURL context2d leftImage rightImage events
            Compositor.executor_start) in H.
  destruct (fold_pending toDataURL context2d leftImage rightImage events H)
    as (HL & HR & _ & _).
  rewrite fold_left_app. cbn [fold_left].
  apply (fold_settled toDataURL context2d leftImage rightImage).
  fold (Behaviour.events_from toDataURL context2d leftImage rightImage events
          Compositor.executor_start).
  destruct side; cbn [Behaviour.other] in Hin; cbn [Compositor.dispatch];
    unfold Compositor.onBothLoaded; cbn [Compositor.leftLoaded Compositor.rightLoaded];
    [apply HR in Hin|apply HL in Hin]; rewrite Hin; cbn [andb];
    destruct context2d; cbn [negb];
    unfold Compositor.reject, Compositor.resolve, Compositor.settle_with;
    cbn [Compositor.promise]; rewrite H; reflexivity.
Qed.

Lemma second_load_settles_witness :
  Compositor.combineImages_after Sample.encoder false Sample.square Sample.portrait
    ([Compositor.onload Compositor.Right]
     ++ Compositor.onload Compositor.Left :: [Compositor.onerror Compositor.Left])
  = Some (inl (Js.JsError "Could not get canvas context")).
Proof.
  apply (second_load_settles Sample.encoder false Sample.square Sample.portrait
           [Compositor.onload Compositor.Right] [Compositor.onerror Compositor.Left]
           Compositor.Left).
  - reflexivity.
  - cbn. auto.
Defined.

(** X11.  When the browser cannot decode the source of one image and can
    decode the other, and the failing image's event is among those
    delivered, [combineImages] rejects with that image's load failure
    message, in whatever order and however often the events arrive. *)
Theorem combineImages_broken_source
    (toDataURL : Compositor.Canvas -> string -> Compositor.number -> string)
    (context2d : bool) (decode : string -> option Compositor.Image)
    (order : list Compositor.Side) (leftImgSrc rightImgSrc : string)
    (side : Compositor.Side) :
  decode (Compositor.source leftImgSrc rightImgSrc side) = None ->
  decode (Compositor.source leftImgSrc rightImgSrc (Behaviour.other side)) <> None ->
  In side order ->
  Compositor.combineImages toDataURL context2d decode order leftImgSrc rightImgSrc
  = Some (inl (Js.JsError (Behaviour.load_error_message side))).
Proof.
  intros Hbad Hgood Hin. unfold Compositor.combineImages.
  set (events := map _ order).
  assert (Hev : forall ev, In ev events ->
                  ev = Compositor.onerror side
                  \/ ev = Compositor.onload (Behaviour.other side)).
  { intros ev H. apply in_map_iff in H. destruct H as (s & <- & _).
    unfold Compositor.load_event.
    destruct side, s; cbn [Behaviour.other Compositor.source] in *.
    - rewrite Hbad. now left.
    - destruct (decode rightImgSrc); [now right|now destruct Hgood].
    - destruct (decode leftImgSrc); [now right|now destruct Hgood].
    - rewrite Hbad. now left. }
  assert (Herr : In (Compositor.onerror side) events).
  { apply in_map_iff. exists side. split; [|exact Hin].
    unfold Compositor.load_event. now rewrite Hbad. }
  pose proof (fold_outcome toDataURL context2d (Compositor.decoded decode leftImgSrc)
                (Compositor.decoded decode rightImgSrc) events) as (_ & _ & Hp).
  pose proof (fold_pending toDataURL context2d (Compositor.decoded decode leftImgSrc)
                (Compositor.decoded decode rightImgSrc) events) as Hpend.
  unfold Compositor.combineImages_after.
  change (fold_left _ events Compositor.executor_start)
    with (Behaviour.events_from toDataURL context2d
            (Compositor.decoded decode leftImgSrc)
            (Compositor.decoded decode rightImgSrc) events Compositor.executor_start).
  assert (Hno : ~ In (Compositor.onload side) events).
  { intros H. destruct (Hev _ H) as [Heq|Heq]; [discriminate Heq|].
    destruct side; discriminate Heq. }
  destruct (Compositor.promise _) as [[e|image]|].
  - destruct Hp as [(s & -> & Hs)|(_ & _ & H1 & H2)].
    + destruct (Hev _ Hs) as [Heq|Heq]; [|discriminate Heq].
      injection Heq as ->. reflexivity.
    + destruct side; [destruct (Hno H1)|destruct (Hno H2)].
  - destruct Hp as (_ & H1 & H2 & _).
    destruct side; [destruct (Hno H1)|destruct (Hno H2)].
  - destruct (Hpend eq_refl) as (_ & _ & Hnone & _). destruct (Hnone side Herr).
Qed.

Lemma combineImages_broken_source_witness :
  Compositor.combineImages Sample.encoder true
    (fun src => if String.eqb src "broken" then None else Some Sample.square)
    [Compositor.Left; Compositor.Right] "data:image/png;base64,AAAA" "broken"
  = Some (inl (Js.JsError "Failed to load right image.")).
Proof.
  apply (combineImages_broken_source Sample.encoder true
           (fun src => if String.eqb src "broken" then None else Some Sample.square)
           [Compositor.Left; Compositor.Right] "data:image/png;base64,AAAA" "broken"
           Compositor.Right).
  - reflexivity.
  - discriminate.
  - cbn. auto.
Defined.

(** X12.  An image of height zero is not refused: its aspect ratio is a
    division by zero, the sum of the scaled widths is then an infinity or
    NaN, and the canvas the encoder receives is zero pixels wide and 720
    high, with the three drawing calls still issued. *)
Theorem zero_height_gives_empty_canvas (leftImage rightImage : Compositor.Image) :
  Compositor.img_height leftImage = 0%N \/ Compositor.img_height rightImage = 0%N ->
  Compositor.canvas_width (Compositor.composite leftImage rightImage) = 0 /\
  Compositor.canvas_height (Compositor.composite leftImage rightImage) = 720 /\
  List.length (Compositor.drawings (Compositor.composite leftImage rightImage)) = 3%nat.
Proof.
  intros H.
  split; [|split; [apply composite_height|reflexivity]].
  rewrite composite_width. apply unbounded_to_unsigned_long, unbounded_sum.
  unfold Compositor.leftScaledWidth, Compositor.rightScaledWidth.
  destruct H as [H|H]; [left|right]; rewrite H;
    apply unbounded_scaled, unbounded_quotient.
Qed.

Lemma zero_height_gives_empty_canvas_witness :
  Compositor.canvas_width (Compositor.composite Behaviour.flat Sample.square) = 0.
Proof.
  apply (zero_height_gives_empty_canvas Behaviour.flat Sample.square).
  left. reflexivity.
Defined.

(* ===================================================================== *)
(** * Further properties of the uploader                                  *)
(* ===================================================================== *)

Section Splitting.
Import Js.

Lemma split_nonempty sep s : split sep s <> [].
Proof.
  induction s as [|c s IH]; cbn; [discriminate|].
  destruct (Ascii.eqb c sep); [discriminate|].
  destruct (split sep s); discriminate.
Qed.

(** A string without a comma is not split. *)
Lemma split_no_comma s : Behaviour.has_comma s = false -> split "," s = [s].
Proof.
  induction s as [|c s IH]; cbn; [reflexivity|].
  intros H. apply Bool.orb_false_iff in H. destruct H as [Hc Hs].
  rewrite Hc, (IH Hs). reflexivity.
Qed.

(** The first piece ends at the first comma. *)
Lemma split_first_comma p rest :
  Behaviour.has_comma p = false ->
  split "," (p ++ String "," rest)%string = p :: split "," rest.
Proof.
  induction p as [|c p IH]; cbn; [reflexivity|].
  intros H. apply Bool.orb_false_iff in H. destruct H as [Hc Hs].
  rewrite Hc, (IH Hs). reflexivity.
Qed.

Lemma payload_after_comma p payload :
  Behaviour.has_comma p = false -> Behaviour.has_comma payload = false ->
  nth_error (split "," (p ++ String "," payload)%string) 1 = Some payload.
Proof.
  intros Hp Hpayload.
  rewrite (split_first_comma p payload Hp), (split_no_comma payload Hpayload).
  reflexivity.
Qed.

End Splitting.

Section Uploader.
Import Js.

Lemma uploads_single slot report s :
  App.uploads slot [report] s = App.onImageUpload slot report s.
Proof. reflexivity. Qed.


Lemma slot_input_upload slot report s :
  App.slot_input slot (App.onImageUpload slot report s) = report.
Proof. now destruct slot. Qed.



End Uploader.

(** X13.  A file whose declared type starts with [image/] and whose read
    gives a data URL made of a comma-free header, a comma and a comma-free
    payload is accepted: the uploader previews the data URL, clears its
    error, and reports exactly once, an image whose [base64] is the payload,
    whose mime type is the declared type of the file and whose data URL is
    the one read; the App then holds that image in the slot. *)
Theorem accepted_upload_reports_payload
    (slot : App.Slot) (file : ImageUploader.File) (header payload : string)
    (st : ImageUploader.State) (s : App.State) :
  Js.startsWith (ImageUploader.type file) "image/" = true ->
  ImageUploader.read file = Some (header ++ String "," payload)%string ->
  Behaviour.has_comma header = false ->
  Behaviour.has_comma payload = false ->
  let image := {| base64 := Some payload;
                  mimeType := ImageUploader.type file;
                  dataUrl := (header ++ String "," payload)%string |} in
  ImageUploader.file_chosen (Some file) st
  = ({| ImageUploader.preview := Some (dataUrl image);
        ImageUploader.error := None |}, [Some image]) /\
  App.slot_input slot
    (App.uploads slot (snd (ImageUploader.file_chosen (Some file) st)) s)
  = Some image.
Proof.
  intros Htype Hread Hh Hp image.
  assert (Hrun : ImageUploader.file_chosen (Some file) st
                 = ({| ImageUploader.preview := Some (dataUrl image);
                       ImageUploader.error := None |}, [Some image])).
  { unfold ImageUploader.file_chosen, ImageUploader.handleFileChange.
    rewrite Htype. cbn [negb]. unfold ImageUploader.readAsDataURL.
    rewrite Hread. cbn [ImageUploader.onloadend].
    rewrite (payload_after_comma header payload Hh Hp). reflexivity. }
  split; [exact Hrun|].
  rewrite Hrun. cbn [snd]. rewrite uploads_single. apply slot_input_upload.
Qed.

Lemma accepted_upload_reports_payload_witness :
  ImageUploader.file_chosen (Some Behaviour.png_file)
    {| ImageUploader.preview := None;
       ImageUploader.error := Some "Failed to read the file." |}
  = ({| ImageUploader.preview := Some "data:image/png;base64,iVBORw0KGgo=";
        ImageUploader.error := None |},
     [Some {| base64 := Some "iVBORw0KGgo="; mimeType := "image/png";
              dataUrl := "data:image/png;base64,iVBORw0KGgo=" |}]).
Proof.
  apply (accepted_upload_reports_payload App.LeftPerson Behaviour.png_file
           "data:image/png;base64" "iVBORw0KGgo="
           {| ImageUploader.preview := None;
              ImageUploader.error := Some "Failed to read the file." |}
           App.initial); reflexivity.
Defined.

(** X14.  Every change of the file input, followed to the end of the
    read, reports to the App exactly once.  It reports an image only for a
    file whose declared type starts with [image/] and whose read succeeds,
    and then the preview is the data URL read, the error is cleared and the
    image carries the declared type; every other change reports an absent
    image. *)
Theorem file_change_reports_once
    (file : option ImageUploader.File) (st : ImageUploader.State) :
  exists report,
    snd (ImageUploader.file_chosen file st) = [report] /\
    match report with
    | Some image =>
        exists f, file = Some f /\
          Js.startsWith (ImageUploader.type f) "image/" = true /\
          ImageUploader.read f = Some (dataUrl image) /\
          mimeType image = ImageUploader.type f /\
          ImageUploader.preview (fst (ImageUploader.file_chosen file st))
          = Some (dataUrl image) /\
          ImageUploader.error (fst (ImageUploader.file_chosen file st)) = None
    | None =>
        file = None
        \/ exists f, file = Some f /\
             (Js.startsWith (ImageUploader.type f) "image/" = false
              \/ ImageUploader.read f = None)
    end.
Proof.
  destruct file as [f|]; [|exists None; split; [reflexivity|now left]].
  unfold ImageUploader.file_chosen, ImageUploader.handleFileChange.
  destruct (Js.startsWith (ImageUploader.type f) "image/") eqn:Htype; cbn [negb].
  - unfold ImageUploader.readAsDataURL.
    destruct (ImageUploader.read f) as [url|] eqn:Hread.
    + cbn. eexists. split; [reflexivity|]. exists f. cbn. auto 7.
    + cbn. exists None. split; [reflexivity|]. right. exists f. auto.
  - cbn. exists None. split; [reflexivity|]. right. exists f. auto.
Qed.

(** X15.  A read that fails after an image was shown leaves the old
    preview on display although the App is told that the slot is empty:
    the uploader keeps its preview, shows the read failure message, and the
    slot of the App holds no image. *)
Theorem failed_read_keeps_preview
    (slot : App.Slot) (file : ImageUploader.File)
    (st : ImageUploader.State) (s : App.State) :
  Js.startsWith (ImageUploader.type file) "image/" = true ->
  ImageUploader.read file = None ->
  let st' := fst (ImageUploader.file_chosen (Some file) st) in
  let s' := App.uploads slot (snd (ImageUploader.file_chosen (Some file) st)) s in
  ImageUploader.preview st' = ImageUploader.preview st /\
  ImageUploader.error st' = Some "Failed to read the file." /\
  App.slot_input slot s' = None.
Proof.
  intros Htype Hread st' s'. subst st' s'.
  unfold ImageUploader.file_chosen, ImageUploader.handleFileChange.
  rewrite Htype. cbn [negb]. unfold ImageUploader.readAsDataURL. rewrite Hread.
  cbn. split; [reflexivity|]. split; [reflexivity|]. now destruct slot.
Qed.

Lemma failed_read_keeps_preview_witness :
  ImageUploader.preview
    (fst (ImageUploader.file_chosen (Some Sample.unreadable_file)
            {| ImageUploader.preview := Some "data:image/png;base64,iVBORw0KGgo=";
               ImageUploader.error := None |}))
  = Some "data:image/png;base64,iVBORw0KGgo=".
Proof.
  apply (failed_read_keeps_preview App.LeftPerson Sample.unreadable_file
           {| ImageUploader.preview := Some "data:image/png;base64,iVBORw0KGgo=";
              ImageUploader.error := None |} App.initial); reflexivity.
Defined.



(* ===================================================================== *)
(** * Further properties of handleGenerateVideo                           *)
(* ===================================================================== *)

Section Attempt.
Import Js App.

(** The handler has no way to touch the inputs or the loading message. *)
Lemma advance_frame m (p : Prog AppE unit) : forall s,
  leftImage (fst (advance m p s)) = leftImage s /\
  rightImage (fst (advance m p s)) = rightImage s /\
  loadingMessage (fst (advance m p s)) = loadingMessage s.
Proof.
  induction p as [a|e|X ev k IH|]; intros s; cbn [advance fst]; auto.
  destruct ev; cbn [fst]; auto;
    match goal with
    | |- context [advance m (k ?r) ?s'] =>
        destruct (IH r s') as (H1 & H2 & H3); rewrite H1, H2, H3;
          destruct m; auto
    end.
Qed.

Lemma invoke_absent sv s :
  leftImage s = None \/ rightImage s = None ->
  invoke sv s
  = (Returned tt,
     {| state := setError (Some "Please upload both images before generating.") s;
        calls := [] |}).
Proof.
  intros H. unfold invoke.
  destruct (leftImage s), (rightImage s); try reflexivity.
  destruct H; discriminate.
Qed.

(** The errors of the two collaborators are [Error]s with a message of
    their own. *)
Lemma combineImages_rejects_message toDataURL context2d decode order l r e :
  Compositor.combineImages toDataURL context2d decode order l r = Some (inl e) ->
  exists m, e = JsError m /\ Behaviour.compositor_message m.
Proof.
  unfold Compositor.combineImages, Compositor.combineImages_after.
  set (events := map _ order).
  pose proof (fold_outcome toDataURL context2d (Compositor.decoded decode l)
                (Compositor.decoded decode r) events) as (_ & _ & Hp).
  unfold Behaviour.events_from in Hp. intros H. rewrite H in Hp.
  destruct Hp as [(side & -> & _)|(-> & _)].
  - eexists. split; [reflexivity|].
    unfold Behaviour.compositor_message. destruct side; cbn; auto.
  - eexists. split; [reflexivity|]. unfold Behaviour.compositor_message. auto.
Qed.

Lemma generation_rejects_message API_KEY R fuel img e :
  settle (fst (EndToEnd.generation API_KEY R fuel img)) = Some (inl e) ->
  exists m, e = JsError m /\ Behaviour.service_message m.
Proof.
  unfold EndToEnd.generation, GeminiService.generateHuggingVideo.
  rewrite run_try_catch.
  destruct (run (GeminiService.serve R)
              (GeminiService.generateHuggingVideo_body API_KEY fuel img)
              GeminiService.fresh) as [[url|cause|] w1]; cbn; try discriminate.
  destruct cause as [m|]; cbn; intros [= <-]; eexists; (split; [reflexivity|]).
  - left. now exists m.
  - now right.
Qed.

Lemma message_is_shown m :
  m = "Please upload both images before generating."
  \/ Behaviour.compositor_message m \/ Behaviour.service_message m ->
  m <> "An unexpected error occurred." /\ truthy_string (Some m) = true.
Proof.
  intros [->|[[->|[->| ->]]|[(cause & ->)| ->]]]; cbn;
    (split; [discriminate|reflexivity]).
Qed.

End Attempt.

(** X17.  Whatever the collaborators answer, an invocation of
    [handleGenerateVideo] leaves the two inputs and the loading message as
    they were, makes at most two calls, calls the compositor only with the
    data URLs of the two inputs, and calls the generation client only with
    the image the compositor resolved with in this invocation: never when
    an input is absent, and never after a failed composition. *)
Theorem generation_uses_composite (sv : App.Services) (s : App.State) :
  let final := snd (App.invoke sv s) in
  App.leftImage (App.state final) = App.leftImage s /\
  App.rightImage (App.state final) = App.rightImage s /\
  App.loadingMessage (App.state final) = App.loadingMessage s /\
  (List.length (App.calls final) <= 2)%nat /\
  (forall a b st, In (App.Combine a b, st) (App.calls final) ->
     exists l r, App.leftImage s = Some l /\ App.rightImage s = Some r /\
                 a = dataUrl l /\ b = dataUrl r) /\
  (forall img st, In (App.Generate img, st) (App.calls final) ->
     exists l r, App.leftImage s = Some l /\ App.rightImage s = Some r /\
                 App.combine sv (dataUrl l) (dataUrl r) = Some (inr img)).
Proof.
  intros final. subst final.
  destruct (App.leftImage s) as [l|] eqn:Hl; [destruct (App.rightImage s) as [r|] eqn:Hr|].
  - rewrite (invoke_cases sv s l r Hl Hr).
    destruct (App.combine sv (dataUrl l) (dataUrl r)) as [[e|img]|] eqn:Hc;
      [|destruct (App.generate sv img) as [[e|url]|]|];
      cbn; rewrite ?Hl, ?Hr;
      (split; [reflexivity|split; [reflexivity|split; [reflexivity|split; [lia|]]]]);
      (split; [intros a b st H|intros g st H]);
      repeat match goal with
             | H : _ \/ _ |- _ => destruct H as [H|H]
             | H : False |- _ => destruct H
             | H : (_, _) = (_, _) |- _ => inversion H; clear H; subst
             end;
      exists l, r; auto.
  - rewrite invoke_absent by now right. cbn. rewrite Hl, Hr.
    split; [reflexivity|split; [reflexivity|split; [reflexivity|split; [lia|]]]].
    split; [intros ? ? ? []|intros ? ? []].
  - rewrite invoke_absent by now left. cbn. rewrite Hl.
    split; [reflexivity|split; [reflexivity|split; [reflexivity|split; [lia|]]]].
    split; [intros ? ? ? []|intros ? ? []].
Qed.

(** X18.  When the compositor rejects, or the generation client does
    after a successful composition, the invocation returns normally and
    the error shown is the message of the rejection when that is an
    [Error], and [An unexpected error occurred.] when it is any other
    value; no video reference is left and the loading flag is cleared.
    After a rejected composition the generation client is not called. *)
Theorem collaborator_error_is_shown
    (sv : App.Services) (s : App.State) (l r : UploadedImage) (e : Js.Thrown) :
  App.leftImage s = Some l ->
  App.rightImage s = Some r ->
  App.combine sv (dataUrl l) (dataUrl r) = Some (inl e)
  \/ (exists img, App.combine sv (dataUrl l) (dataUrl r) = Some (inr img)
                  /\ App.generate sv img = Some (inl e)) ->
  let final := snd (App.invoke sv s) in
  fst (App.invoke sv s) = Js.Returned tt /\
  App.error (App.state final)
  = Some (match e with
          | Js.JsError message => message
          | Js.JsOther => "An unexpected error occurred."
          end) /\
  App.generatedVideoUrl (App.state final) = None /\
  App.isLoading (App.state final) = false /\
  (App.combine sv (dataUrl l) (dataUrl r) = Some (inl e) ->
   forall img st, ~ In (App.Generate img, st) (App.calls final)).
Proof.
  intros Hl Hr Hfail final. subst final. rewrite (invoke_cases sv s l r Hl Hr).
  destruct Hfail as [Hc|(img & Hc & Hg)]; rewrite Hc; [|rewrite Hg]; cbn.
  - split; [reflexivity|]. split; [now destruct e|].
    split; [reflexivity|]. split; [reflexivity|].
    intros _ img st [H|[]]. discriminate H.
  - split; [reflexivity|]. split; [now destruct e|].
    split; [reflexivity|]. split; [reflexivity|].
    intros H. discriminate H.
Qed.

Lemma collaborator_error_is_shown_witness :
  let sv := {| App.combine := fun _ _ => Some (inr Sample.picture);
               App.generate := fun _ => Some (inl Js.JsOther) |} in
  App.error (App.state (snd (App.invoke sv (App.app Sample.both_uploaded))))
  = Some "An unexpected error occurred.".
Proof.
  intros sv.
  apply (collaborator_error_is_shown sv (App.app Sample.both_uploaded)
           Sample.picture Sample.picture Js.JsOther); try reflexivity.
  right. exists Sample.picture. split; reflexivity.
Defined.

(** X19.  With [combineImages] and [generateHuggingVideo] themselves as
    collaborators, whatever the browser, the provider and the network do,
    an error left by an invocation of [handleGenerateVideo] is the request
    to upload both images, one of the three messages of the compositor, or
    a message of the generation client (its prefix followed by the cause,
    or its unknown-error message).  It is never the fallback
    [An unexpected error occurred.], and it is never empty, so the error
    banner shows it. *)
Theorem every_failure_is_shown
    (API_KEY : string) (R : GeminiService.Remote) (fuel : nat)
    (toDataURL : Compositor.Canvas -> string -> Compositor.number -> string)
    (context2d : bool) (decode : string -> option Compositor.Image)
    (order : list Compositor.Side) (s : App.State) (m : string) :
  let sv := Behaviour.browser_services API_KEY R fuel toDataURL context2d decode order in
  let final := App.state (snd (App.invoke sv s)) in
  App.error final = Some m ->
  (m = "Please upload both images before generating."
   \/ Behaviour.compositor_message m \/ Behaviour.service_message m) /\
  m <> "An unexpected error occurred." /\
  App.error_shown (App.render final) = Some m.
Proof.
  intros sv final Herr.
  assert (Hshape : m = "Please upload both images before generating."
                   \/ Behaviour.compositor_message m \/ Behaviour.service_message m).
  { subst final.
    destruct (App.leftImage s) as [l|] eqn:Hl;
      [destruct (App.rightImage s) as [r|] eqn:Hr|].
    - rewrite (invoke_cases sv s l r Hl Hr) in Herr.
      destruct (App.combine sv (dataUrl l) (dataUrl r)) as [[e|img]|] eqn:Hc.
      + apply combineImages_rejects_message in Hc. destruct Hc as (m' & -> & Hm').
        cbn in Herr. injection Herr as <-. auto.
      + destruct (App.generate sv img) as [[e|url]|] eqn:Hg.
        * apply generation_rejects_message in Hg. destruct Hg as (m' & -> & Hm').
          cbn in Herr. injection Herr as <-. auto.
        * cbn in Herr. discriminate Herr.
        * cbn in Herr. discriminate Herr.
      + cbn in Herr. discriminate Herr.
    - rewrite invoke_absent in Herr by now right.
      cbn in Herr. injection Herr as <-. auto.
    - rewrite invoke_absent in Herr by now left.
      cbn in Herr. injection Herr as <-. auto. }
  destruct (message_is_shown m Hshape) as [Hne Htruthy].
  split; [exact Hshape|]. split; [exact Hne|].
  cbn [App.render App.error_shown]. rewrite Herr, Htruthy. reflexivity.
Qed.

Lemma every_failure_is_shown_witness :
  let sv := Behaviour.browser_services "KEY" (Sample.provider 0 None) 3
              Sample.encoder true (fun _ => Some Sample.square)
              [Compositor.Left; Compositor.Right] in
  App.error_shown
    (App.render (App.state (snd (App.invoke sv (App.app Sample.both_uploaded)))))
  = Some "An error occurred with the AI service: Video generation failed: no download link provided.".
Proof.
  intros sv.
  apply (every_failure_is_shown "KEY" (Sample.provider 0 None) 3
           Sample.encoder true (fun _ => Some Sample.square)
           [Compositor.Left; Compositor.Right] (App.app Sample.both_uploaded)).
  vm_compute. reflexivity.
Defined.

Section Submission.
Import Js GeminiService.

(** A run only adds to the trace. *)
Lemma serve_extends R X (ev : ServiceE X) w :
  exists a, trace (snd (serve R X ev w)) = trace w ++ [a].
Proof. destruct ev; eexists; reflexivity. Qed.

Lemma run_extends R {A} (p : Prog ServiceE A) : forall w,
  exists t, trace (snd (run (serve R) p w)) = trace w ++ t.
Proof.
  induction p as [a|e|X ev k IH|]; intros w; cbn [run snd];
    try (exists []; now rewrite app_nil_r).
  destruct (serve_extends R X ev w) as (a & Ha).
  destruct (serve R X ev w) as [[r|] w']; cbn [snd] in *.
  - destruct (IH r w') as (t & Ht). exists (a :: t).
    rewrite Ht, Ha, <- app_assoc. reflexivity.
  - exists [a]. exact Ha.
Qed.

(** The first action of [generateHuggingVideo] is the submission. *)
Lemma generation_submits_first API_KEY R fuel img :
  exists t,
    trace (snd (EndToEnd.generation API_KEY R fuel img)) = Submitted (request img) :: t.
Proof.
  unfold EndToEnd.generation, generateHuggingVideo, generateHuggingVideo_body.
  cbn [bind await try_catch run serve].
  destruct (submit R (request img)) as [r|].
  - match goal with
    | |- context [run (serve R) ?p ?w] => destruct (run_extends R p w) as (t & Ht)
    end.
    exists t. rewrite Ht. reflexivity.
  - exists []. reflexivity.
Qed.

End Submission.

(** X20.  With [combineImages] and [generateHuggingVideo] themselves as
    collaborators, what reaches the provider is the composite and nothing
    of the uploads themselves: whenever [handleGenerateVideo] calls the
    generation client, a 2D context was to be had, the image passed is the
    one encoded from the composite canvas of the two decoded inputs, and
    the first action of the client is the submission of a request for one
    video from model [veo-2.0-generate-001], with the fixed prompt, mime
    type [image/jpeg] and, as image bytes, the part of the composite's
    data URL after its first comma. *)
Theorem provider_receives_the_composite
    (API_KEY : string) (R : GeminiService.Remote) (fuel : nat)
    (toDataURL : Compositor.Canvas -> string -> Compositor.number -> string)
    (context2d : bool) (decode : string -> option Compositor.Image)
    (order : list Compositor.Side) (s : App.State)
    (img : UploadedImage) (st : App.State) :
  let sv := Behaviour.browser_services API_KEY R fuel toDataURL context2d decode order in
  In (App.Generate img, st) (App.calls (snd (App.invoke sv s))) ->
  context2d = true /\
  (exists l r,
     App.leftImage s = Some l /\ App.rightImage s = Some r /\
     img = Behaviour.combined toDataURL (Compositor.decoded decode (dataUrl l))
             (Compositor.decoded decode (dataUrl r))) /\
  exists t,
    GeminiService.trace (snd (EndToEnd.generation API_KEY R fuel img))
    = GeminiService.Submitted
        {| GeminiService.model := "veo-2.0-generate-001";
           GeminiService.prompt := GeminiService.the_prompt;
           GeminiService.imageBytes := nth_error (Js.split "," (dataUrl img)) 1;
           GeminiService.imageMimeType := "image/jpeg";
           GeminiService.numberOfVideos := 1 |} :: t.
Proof.
  intros sv Hin.
  assert (Hcall : exists l r,
             App.leftImage s = Some l /\ App.rightImage s = Some r /\
             App.combine sv (dataUrl l) (dataUrl r) = Some (inr img)).
  { destruct (App.leftImage s) as [l|] eqn:Hl;
      [destruct (App.rightImage s) as [r|] eqn:Hr|].
    - rewrite (invoke_cases sv s l r Hl Hr) in Hin.
      destruct (App.combine sv (dataUrl l) (dataUrl r)) as [[e|img']|] eqn:Hc;
        [|destruct (App.generate sv img') as [[e|url]|]|];
        cbn in Hin;
        repeat match goal with
               | H : _ \/ _ |- _ => destruct H as [H|H]
               | H : False |- _ => destruct H
               | H : (_, _) = (_, _) |- _ => inversion H; clear H; subst
               end;
        exists l, r; auto.
    - rewrite invoke_absent in Hin by now right. destruct Hin.
    - rewrite invoke_absent in Hin by now left. destruct Hin. }
  destruct Hcall as (l & r & Hl & Hr & Hc).
  subst sv. cbn [Behaviour.browser_services EndToEnd.services App.combine] in Hc.
  unfold Compositor.combineImages, Compositor.combineImages_after in Hc.
  pose proof (fold_outcome toDataURL context2d
                (Compositor.decoded decode (dataUrl l))
                (Compositor.decoded decode (dataUrl r))
                (map (fun side =>
                        Compositor.load_event decode
                          (Compositor.source (dataUrl l) (dataUrl r) side) side) order))
    as (_ & _ & Hp).
  unfold Behaviour.events_from in Hp. rewrite Hc in Hp.
  destruct Hp as (Hctx & _ & _ & Himg).
  split; [exact Hctx|]. split; [exists l, r; auto|].
  destruct (generation_submits_first API_KEY R fuel img) as (t & Ht).
  exists t. rewrite Ht, Himg. reflexivity.
Qed.

Lemma provider_receives_the_composite_witness :
  exists l r,
    App.leftImage (App.app Sample.both_uploaded) = Some l /\
    App.rightImage (App.app Sample.both_uploaded) = Some r /\
    Behaviour.combined Sample.encoder Sample.square Sample.square
    = Behaviour.combined Sample.encoder
        (Compositor.decoded (fun _ => Some Sample.square) (dataUrl l))
        (Compositor.decoded (fun _ => Some Sample.square) (dataUrl r)).
Proof.
  apply (provider_receives_the_composite "KEY"
           (Sample.provider 0 (Some "https://v/1?alt=media")) 3
           Sample.encoder true (fun _ => Some Sample.square)
           [Compositor.Left; Compositor.Right] (App.app Sample.both_uploaded)
           (Behaviour.combined Sample.encoder Sample.square Sample.square)
           (App.attempt_state (App.app Sample.both_uploaded))).
  vm_compute. right. left. reflexivity.
Defined.

(* ===================================================================== *)
(** * Further properties of the component in the event loop               *)
(* ===================================================================== *)

Section Controls.
Import Js App.

Lemma advance_unmounted (p : Prog AppE unit) : forall s, fst (advance false p s) = s.
Proof.
  induction p as [a|e|X ev k IH|]; intros s; cbn [advance fst]; auto.
  destruct ev; cbn [fst]; auto.
Qed.

Lemma proceed_unmounted sys others p :
  mounted sys = false ->
  app (fst (proceed sys others p)) = app sys /\
  window (fst (proceed sys others p)) = window sys /\
  mounted (fst (proceed sys others p)) = false.
Proof.
  intros Hm. unfold proceed. rewrite Hm.
  pose proof (advance_unmounted p (app sys)) as H.
  destruct (advance false p (app sys)) as [s' susp]. cbn in *. auto.
Qed.

Lemma proceed_calls sys others p :
  snd (proceed sys others p)
  = match snd (advance (mounted sys) p (app sys)) with
    | Some p' => [call_of p']
    | None => []
    end.
Proof.
  unfold proceed. destruct (advance (mounted sys) p (app sys)) as [s' susp].
  destruct (mounted sys); [destruct (commit _ _ _ _)|]; reflexivity.
Qed.

Lemma update_app_calls sys f : snd (update_app sys f) = [].
Proof.
  unfold update_app. destruct (mounted sys); [destruct (commit _ _ _ _)|]; reflexivity.
Qed.

Lemma update_app_unmounted sys f : mounted sys = false -> update_app sys f = (sys, []).
Proof. intros H. unfold update_app. now rewrite H. Qed.

Lemma update_app_app sys f :
  app (fst (update_app sys f)) = if mounted sys then f (app sys) else app sys.
Proof.
  unfold update_app. destruct (mounted sys); [destruct (commit _ _ _ _)|]; reflexivity.
Qed.

Lemma step_unmounted sys ev :
  mounted sys = false ->
  app (after sys ev) = app sys /\
  window (after sys ev) = window sys /\
  mounted (after sys ev) = false.
Proof.
  intros Hm. unfold after.
  destruct ev as [| | |[|] image|handle|n result|n result|]; cbn [step].
  - rewrite Hm. cbn. auto.
  - destruct (present _); [rewrite update_app_unmounted by exact Hm|]; cbn; auto.
  - destruct (present _); [rewrite update_app_unmounted by exact Hm|]; cbn; auto.
  - rewrite update_app_unmounted by exact Hm. cbn. auto.
  - rewrite update_app_unmounted by exact Hm. cbn. auto.
  - destruct (running _ _); [rewrite update_app_unmounted by exact Hm|]; cbn; auto.
  - destruct (nth_error _ _) as [[l r k|img k]|]; cbn [fst]; auto.
    now apply proceed_unmounted.
  - destruct (nth_error _ _) as [[l r k|img k]|]; cbn [fst]; auto.
    now apply proceed_unmounted.
  - rewrite Hm. cbn. auto.
Qed.

(** What the invariant says of a mounted component that is loading, that
    shows a video, or that shows an error. *)
Lemma loading_facts sys :
  invariant sys -> mounted sys = true -> isLoading (app sys) = true ->
  in_flight sys <> [] /\ error (app sys) = None /\ generatedVideoUrl (app sys) = None.
Proof.
  intros Hinv Hm Hload.
  assert (Hfl : in_flight sys <> []).
  { intros Hnone. pose proof (inv_idle sys Hinv Hm Hnone) as H.
    rewrite Hload in H. discriminate H. }
  destruct (inv_busy sys Hinv Hfl) as (_ & Hv & He). auto.
Qed.

Lemma video_facts sys url :
  invariant sys -> mounted sys = true -> generatedVideoUrl (app sys) = Some url ->
  isLoading (app sys) = false /\ error (app sys) = None.
Proof.
  intros Hinv Hm Hv. split.
  - destruct (isLoading (app sys)) eqn:Hload; [|reflexivity].
    destruct (loading_facts sys Hinv Hm Hload) as (_ & _ & H).
    rewrite Hv in H. discriminate H.
  - destruct (error (app sys)) as [m|] eqn:He; [|reflexivity].
    assert (H : generatedVideoUrl (app sys) = None).
    { apply (inv_failed sys Hinv). rewrite He. discriminate. }
    rewrite Hv in H. discriminate H.
Qed.


Lemma shown_string v m :
  (if truthy_string v then v else None) = Some m ->
  v = Some m /\ truthy_string (Some m) = true.
Proof.
  destruct v as [x|]; cbn; [|discriminate].
  destruct (negb (String.eqb x "")) eqn:H; [|discriminate].
  intros [= <-]. cbn. auto.
Qed.

Lemma after_all_app sys events ev :
  after_all sys (events ++ [ev]) = after (after_all sys events) ev.
Proof. unfold after_all. now rewrite fold_left_app. Qed.

Lemma reachable_after_all sys events : reachable sys -> reachable (after_all sys events).
Proof.
  intros H. induction events as [|ev events IH] using rev_ind; [exact H|].
  rewrite after_all_app. now constructor.
Qed.


Lemma reachable_ready_once : reachable Behaviour.ready_once.
Proof. unfold Behaviour.ready_once. do 2 constructor. exact reachable_generating. Qed.

End Controls.

(** X21.  In every state the component can reach, while the loading flag
    is set the two other buttons do nothing either: a click on the close
    button of the error banner and a click on Create Another leave the
    state as it is and start no call.  While the component is mounted,
    neither button is on the screen: no error and no video is shown, the
    inputs are hidden, and the progress message is. *)
Theorem controls_inert_while_busy (sys : App.System) :
  App.reachable sys ->
  App.isLoading (App.app sys) = true ->
  App.step sys App.Click_close_error = (sys, []) /\
  App.step sys App.Click_create_another = (sys, []) /\
  (App.mounted sys = true ->
   App.error_shown (App.render (App.app sys)) = None /\
   App.video_shown (App.render (App.app sys)) = None /\
   App.inputs_shown (App.render (App.app sys)) = false /\
   App.progress_shown (App.render (App.app sys))
   = Some (App.loadingMessage (App.app sys))).
Proof.
  intros Hreach Hload. apply reachable_invariant in Hreach.
  destruct (App.mounted sys) eqn:Hm.
  - destruct (loading_facts sys Hreach Hm Hload) as (_ & He & Hv).
    cbn [App.step App.render App.error_shown App.video_shown App.inputs_shown
         App.progress_shown].
    rewrite He, Hv, Hload. cbn. auto 6.
  - cbn [App.step].
    split; [|split; [|intros H; discriminate H]].
    + destruct (App.present _); [now apply update_app_unmounted|reflexivity].
    + destruct (App.present _); [now apply update_app_unmounted|reflexivity].
Qed.

Lemma controls_inert_while_busy_witness :
  App.step Sample.generating App.Click_create_another = (Sample.generating, []).
Proof.
  apply (controls_inert_while_busy Sample.generating reachable_generating).
  reflexivity.
Defined.



(** X23.  In every reachable state of the mounted component that shows a
    video, a click on Create Another empties both inputs and clears the
    video reference and the error, and touches nothing else: no call is
    started, the timers are as before, and the loading message keeps its
    last value.  The workflow is then Idle with the Generate button
    disabled. *)
Theorem create_another_resets (sys : App.System) (url : string) :
  App.reachable sys ->
  App.mounted sys = true ->
  App.video_shown (App.render (App.app sys)) = Some url ->
  let sys' := App.after sys App.Click_create_another in
  App.step sys App.Click_create_another
  = ({| App.mounted := true;
        App.app := {| App.leftImage := None; App.rightImage := None;
                      App.generatedVideoUrl := None; App.isLoading := false;
                      App.loadingMessage := App.loadingMessage (App.app sys);
                      App.error := None |};
        App.intervalRef := App.intervalRef sys;
        App.window := App.window sys;
        App.in_flight := App.in_flight sys |}, []) /\
  App.workflowState (App.app sys') = App.Idle /\
  App.generate_disabled (App.render (App.app sys')) = true /\
  App.inputs_shown (App.render (App.app sys')) = true.
Proof.
  intros Hreach Hm Hshown sys'. apply reachable_invariant in Hreach.
  pose proof Hshown as Hshown'.
  cbn [App.render App.video_shown] in Hshown'.
  apply shown_string in Hshown'. destruct Hshown' as [Hv Htruthy].
  destruct (video_facts sys url Hreach Hm Hv) as (Hload & He).
  assert (Hstep : App.step sys App.Click_create_another
                  = ({| App.mounted := true;
                        App.app := {| App.leftImage := None; App.rightImage := None;
                                      App.generatedVideoUrl := None;
                                      App.isLoading := false;
                                      App.loadingMessage := App.loadingMessage (App.app sys);
                                      App.error := None |};
                        App.intervalRef := App.intervalRef sys;
                        App.window := App.window sys;
                        App.in_flight := App.in_flight sys |}, [])).
  { cbn [App.step]. rewrite Hshown. cbn [App.present].
    rewrite (surjective_pairing (App.update_app sys _)).
    rewrite update_app_calls, update_app_loading_kept by reflexivity.
    rewrite Hm.
    unfold App.setError, App.setRightImage, App.setLeftImage, App.setGeneratedVideoUrl.
    cbn [App.leftImage App.rightImage App.generatedVideoUrl App.isLoading
         App.loadingMessage App.error].
    rewrite Hload. reflexivity. }
  split; [exact Hstep|].
  subst sys'. unfold App.after. rewrite Hstep. cbn. auto.
Qed.

Lemma create_another_resets_witness :
  App.workflowState (App.app (App.after Behaviour.ready_once App.Click_create_another))
  = App.Idle.
Proof.
  apply (create_another_resets Behaviour.ready_once "blob:video" reachable_ready_once);
    reflexivity.
Defined.

(** X24.  In any state, an event other than a firing of the interval
    leaves the loading message as it is, so a later attempt starts with the
    message the previous one ended on; and an event other than a report of
    an uploader or a click on Create Another leaves the two inputs as they
    are, so no attempt, failed or not, loses them. *)
Theorem event_frame (sys : App.System) (ev : App.Event) :
  ((forall handle, ev <> App.Interval_fires handle) ->
   App.loadingMessage (App.app (App.after sys ev)) = App.loadingMessage (App.app sys)) /\
  ((forall slot image, ev <> App.Image_upload slot image) ->
   ev <> App.Click_create_another ->
   App.leftImage (App.app (App.after sys ev)) = App.leftImage (App.app sys) /\
   App.rightImage (App.app (App.after sys ev)) = App.rightImage (App.app sys)).
Proof.
  unfold App.after.
  destruct ev as [| | |[|] image|handle|n result|n result|]; cbn [App.step].
  - destruct (_ && _ && _);
      [rewrite proceed_app;
       destruct (advance_frame (App.mounted sys)
                   (App.handleGenerateVideo (App.leftImage (App.app sys))
                      (App.rightImage (App.app sys))) (App.app sys))
         as (H1 & H2 & H3)|]; cbn; auto.
  - destruct (App.present _); [rewrite update_app_app; destruct (App.mounted sys)|];
      cbn; auto.
  - split; [|intros _ H; now destruct H].
    destruct (App.present _); [rewrite update_app_app; destruct (App.mounted sys)|];
      cbn; auto.
  - split; [|intros H; now destruct (H App.LeftPerson image)].
    rewrite update_app_app; destruct (App.mounted sys); cbn; auto.
  - split; [|intros H; now destruct (H App.RightPerson image)].
    rewrite update_app_app; destruct (App.mounted sys); cbn; auto.
  - split; [intros H; now destruct (H handle)|].
    destruct (App.running _ _); [rewrite update_app_app; destruct (App.mounted sys)|];
      cbn; auto.
  - destruct (nth_error _ _) as [[l r k|img k]|]; cbn [fst]; auto.
    rewrite proceed_app.
    destruct (advance_frame (App.mounted sys) (k result) (App.app sys))
      as (H1 & H2 & H3). auto.
  - destruct (nth_error _ _) as [[l r k|img k]|]; cbn [fst]; auto.
    rewrite proceed_app.
    destruct (advance_frame (App.mounted sys) (k result) (App.app sys))
      as (H1 & H2 & H3). auto.
  - destruct (App.mounted sys); cbn; auto.
Qed.

Lemma event_frame_witness :
  App.leftImage
    (App.app (App.after Sample.generating
                (App.Combine_settles 0 (inl (Js.JsError "Failed to load left image.")))))
  = App.leftImage (App.app Sample.generating).
Proof.
  apply (event_frame Sample.generating
           (App.Combine_settles 0 (inl (Js.JsError "Failed to load left image."))));
    discriminate.
Defined.

(** X25.  The interval callback walks the seven loading messages in
    order and around: from the message of index [i], [n] firings lead to
    the message of index [(i + n) mod 7], and they change nothing else of
    the state. *)
Theorem ticks_cycle (s : App.State) (i n : nat) :
  (i < List.length App.loadingMessages)%nat ->
  App.loadingMessage s = nth i App.loadingMessages "" ->
  App.loadingMessage (Behaviour.ticks n s)
  = nth ((i + n) mod 7) App.loadingMessages "" /\
  App.leftImage (Behaviour.ticks n s) = App.leftImage s /\
  App.rightImage (Behaviour.ticks n s) = App.rightImage s /\
  App.generatedVideoUrl (Behaviour.ticks n s) = App.generatedVideoUrl s /\
  App.isLoading (Behaviour.ticks n s) = App.isLoading s /\
  App.error (Behaviour.ticks n s) = App.error s.
Proof.
  intros Hi Hmsg. unfold Behaviour.ticks.
  induction n as [|n IH].
  - cbn [Nat.iter]. rewrite Nat.add_0_r, Nat.mod_small by exact Hi. auto 6.
  - change (Nat.iter (S n) App.tick s) with (App.tick (Nat.iter n App.tick s)).
    set (s' := Nat.iter n App.tick s) in *.
    destruct IH as (IH1 & IH2 & IH3 & IH4 & IH5 & IH6).
    unfold App.tick, App.setLoadingMessage.
    cbn [App.leftImage App.rightImage App.generatedVideoUrl App.isLoading
         App.loadingMessage App.error].
    split; [|auto 6].
    rewrite IH1.
    rewrite next_message_nth by (apply Nat.mod_upper_bound; discriminate).
    change (List.length App.loadingMessages) with 7%nat.
    f_equal.
    replace (S ((i + n) mod 7)) with ((i + n) mod 7 + 1)%nat by lia.
    rewrite Nat.Div0.add_mod_idemp_l. f_equal. lia.
Qed.

Lemma ticks_cycle_witness :
  App.loadingMessage (Behaviour.ticks 9 App.initial)
  = "Setting the scene for the animation...".
Proof.
  apply (ticks_cycle App.initial 0 9); [cbn; lia|reflexivity].
Defined.



(** X27.  Unmounting does not cancel an attempt: when the component is
    unmounted while its invocation awaits the compositor, and the
    compositor then resolves, the generation client is still called with
    the combined image, although no state of the component changes any
    more and no interval runs. *)
Theorem unmount_does_not_cancel
    (sys : App.System) (a b : string)
    (k : Js.Settled UploadedImage -> Js.Prog App.AppE unit) (img : UploadedImage) :
  App.reachable sys ->
  App.in_flight sys = [App.AwaitingCombine a b k] ->
  let sys' := App.after sys App.Unmount in
  App.mounted sys' = false /\
  snd (App.step sys' (App.Combine_settles 0 (inr img))) = [App.Generate img] /\
  App.app (App.after sys' (App.Combine_settles 0 (inr img))) = App.app sys /\
  App.intervals (App.window (App.after sys' (App.Combine_settles 0 (inr img)))) = [].
Proof.
  intros Hreach Hfl sys'.
  pose proof (reachable_invariant sys Hreach) as Hinv.
  assert (Hk : k = App.after_combine).
  { destruct (flight_cases sys (App.inv_flight sys Hinv) 0
                (App.AwaitingCombine a b k)) as (_ & _ & [(l & r & H)|(x & H)]);
      [now rewrite Hfl| |discriminate H].
    now injection H as _ _ ->. }
  subst k.
  assert (Hsys' : App.mounted sys' = false /\ App.app sys' = App.app sys /\
                  App.in_flight sys' = App.in_flight sys).
  { subst sys'. unfold App.after. cbn [App.step].
    destruct (App.mounted sys) eqn:Hm; cbn; auto. }
  destruct Hsys' as (Hm' & Happ' & Hfl').
  assert (Hreach' : App.reachable sys') by now constructor.
  split; [exact Hm'|].
  assert (Hstep : App.step sys' (App.Combine_settles 0 (inr img))
                  = App.proceed sys' [] (App.after_combine (inr img))).
  { cbn [App.step]. rewrite Hfl', Hfl. reflexivity. }
  split; [|split].
  - rewrite Hstep, proceed_calls, advance_after_combine_ok. reflexivity.
  - destruct (step_unmounted sys' (App.Combine_settles 0 (inr img)) Hm') as (H & _).
    now rewrite H.
  - pose proof (reachable_invariant _
                  (App.reachable_step sys' (App.Combine_settles 0 (inr img)) Hreach'))
      as Hinv'.
    destruct (App.inv_ticker _ Hinv') as [_ Htick].
    destruct (step_unmounted sys' (App.Combine_settles 0 (inr img)) Hm') as (_ & _ & H).
    rewrite H in Htick. exact Htick.
Qed.

Lemma unmount_does_not_cancel_witness :
  snd (App.step (App.after Sample.generating App.Unmount)
         (App.Combine_settles 0 (inr Sample.picture)))
  = [App.Generate Sample.picture].
Proof.
  apply (unmount_does_not_cancel Sample.generating
           (dataUrl Sample.picture) (dataUrl Sample.picture) App.after_combine
           Sample.picture reachable_generating).
  reflexivity.
Defined.




